(** * threadverse: running a computation in an isolate, with delayed start,
      timeout, external cancellation and bounded retries.

    The development embeds the two variants of the library
    ([src/node/index.ts], the worker_threads variant, and
    [src/lib/web/index.ts], the Web Worker variant) as transition systems over
    one explicit state: the caller side is single threaded and event driven,
    so every callback of the source becomes a task of a discrete-event queue
    ordered by virtual time in milliseconds. *)

From Stdlib Require Import ZArith String DecimalString Bool Arith List Lia Sorted.
Import ListNotations.

Set Implicit Arguments.

(** ** Data model ([src/interfaces/index.ts]) *)

(** Plain data exchanged with an isolate. *)
Definition Value := Z.

Record Error := mkError { message : string }.

(** [IResponse]: the tagged message of the Web Worker variant. *)
Inductive IResponse :=
| success (content : Value)
| error (err : Error).

(** Result of [await runnable.apply(null, data)] inside the isolate. *)
Inductive Completion :=
| Normal (v : Value)
| Abrupt (e : Error).

(** How one isolate run unfolds, as seen from outside: the computation
    completes [after] milliseconds after it received its arguments, never
    completes, or the isolate itself fails [after] milliseconds after its
    creation, outside the computation (the transplanted source does not
    load, say). *)
Inductive Behaviour :=
| Completes (after : nat) (c : Completion)
| Hangs
| Crashes (after : nat) (e : Error).

(** [IRunnable]: every attempt runs the computation in a fresh isolate; the
    attempt number is an argument so that a computation may fail on one
    attempt and succeed on the next. *)
Definition IRunnable := nat -> list Value -> Behaviour.

(** The [AbortSignal] handed in by the caller, described by when its
    [abort] event is dispatched, counted from the invocation. *)
Inductive AbortSignal :=
| AlreadyAborted
| AbortsAt (t : nat)
| NeverAborts.

Definition Logger := string -> list string -> list string.

Record IRunnableOption := mkOption {
  signal : option AbortSignal;
  startTime : option Z;
  timeout : option Z;
  retriesWithIn : option (list Z);
  logger : option Logger
}.

Definition noOption : IRunnableOption :=
  {| signal := None; startTime := None; timeout := None;
     retriesWithIn := None; logger := None |}.

(** [options: IRunnableOption = {}] *)
Definition orDefault (options : option IRunnableOption) : IRunnableOption :=
  match options with Some o => o | None => noOption end.

(** JavaScript truthiness of a number. *)
Definition truthy (n : Z) : bool := negb (n =? 0)%Z.

(** Template-literal rendering of a number. *)
Definition render (n : Z) : string := NilZero.string_of_int (Z.to_int n).

(** ** The caller-side state *)

Inductive Promise :=
| Pending
| Resolved (v : Value)
| Rejected (e : Error).

(** The callbacks of the source, defunctionalised, and the events of the
    environment that trigger its listeners. *)
Inductive Task :=
| StartTimer (w : nat)            (* () => worker.postMessage(params) *)
| TimeoutTimer (w : nat)          (* () => { worker.terminate(); clearTimeout(startTimer) } *)
| RetryTimer                      (* tryExecution *)
| AbortEvent                      (* the signal dispatches "abort" *)
| Settle (w : nat) (c : Completion) (* the isolate finishes the computation *)
| Crash (w : nat) (e : Error)     (* the isolate fails outside the computation *)
| ExitEvent (w : nat) (code : Z). (* worker_threads "exit" *)

Record Entry := mkEntry { due : nat; id : nat; task : Task }.

(** One isolate handle with the two timer variables its listeners close
    over. *)
Record Worker := mkWorker {
  alive : bool;
  startTimer : option nat;
  timeoutTimer : option nat
}.

Record State := mkState {
  now : nat;
  seq : nat;
  queue : list Entry;
  workers : list Worker;
  abortListeners : list nat;
  promise : Promise;
  retryCount : nat;
  errorInstance : option Error;
  logged : list string
}.

Definition set_now (n : nat) (s : State) : State :=
  mkState n (seq s) (queue s) (workers s) (abortListeners s) (promise s)
          (retryCount s) (errorInstance s) (logged s).
Definition set_seq (n : nat) (s : State) : State :=
  mkState (now s) n (queue s) (workers s) (abortListeners s) (promise s)
          (retryCount s) (errorInstance s) (logged s).
Definition set_queue (q : list Entry) (s : State) : State :=
  mkState (now s) (seq s) q (workers s) (abortListeners s) (promise s)
          (retryCount s) (errorInstance s) (logged s).
Definition set_workers (ws : list Worker) (s : State) : State :=
  mkState (now s) (seq s) (queue s) ws (abortListeners s) (promise s)
          (retryCount s) (errorInstance s) (logged s).
Definition set_abortListeners (l : list nat) (s : State) : State :=
  mkState (now s) (seq s) (queue s) (workers s) l (promise s)
          (retryCount s) (errorInstance s) (logged s).
Definition set_promise (p : Promise) (s : State) : State :=
  mkState (now s) (seq s) (queue s) (workers s) (abortListeners s) p
          (retryCount s) (errorInstance s) (logged s).
Definition set_retryCount (n : nat) (s : State) : State :=
  mkState (now s) (seq s) (queue s) (workers s) (abortListeners s) (promise s)
          n (errorInstance s) (logged s).
Definition set_errorInstance (e : option Error) (s : State) : State :=
  mkState (now s) (seq s) (queue s) (workers s) (abortListeners s) (promise s)
          (retryCount s) e (logged s).
Definition set_logged (l : list string) (s : State) : State :=
  mkState (now s) (seq s) (queue s) (workers s) (abortListeners s) (promise s)
          (retryCount s) (errorInstance s) l.

(** *** Promise: the first [resolve] or [reject] wins *)

Definition resolve (v : Value) (s : State) : State :=
  match promise s with
  | Pending => set_promise (Resolved v) s
  | _ => s
  end.

Definition reject (e : Error) (s : State) : State :=
  match promise s with
  | Pending => set_promise (Rejected e) s
  | _ => s
  end.

(** *** Timers and the task queue

    The queue is kept in firing order; tasks due at the same instant fire in
    the order they were scheduled. [seq] numbers the tasks; the number of a
    timer is what [setTimeout] returns. *)

Fixpoint enqueue (e : Entry) (q : list Entry) : list Entry :=
  match q with
  | [] => [e]
  | x :: q' => if due e <? due x then e :: q else x :: enqueue e q'
  end.

Definition schedule (delay : nat) (t : Task) (s : State) : State :=
  set_queue (enqueue (mkEntry (now s + delay) (seq s) t) (queue s))
            (set_seq (S (seq s)) s).

(** [setTimeout(callback, ms)]; a negative delay fires as soon as possible. *)
Definition setTimeout (t : Task) (ms : Z) (s : State) : nat * State :=
  (seq s, schedule (Z.to_nat ms) t s).

(** [clearTimeout(timer)]; clearing [undefined] or a timer that has fired
    does nothing. *)
Definition clearTimeout (timer : option nat) (s : State) : State :=
  match timer with
  | None => s
  | Some i => set_queue (filter (fun e => negb (id e =? i)) (queue s)) s
  end.

(** *** Isolate handles *)

Fixpoint update (w : nat) (f : Worker -> Worker) (ws : list Worker) : list Worker :=
  match ws, w with
  | [], _ => []
  | x :: ws', O => f x :: ws'
  | x :: ws', S w' => x :: update w' f ws'
  end.

Definition is_alive (w : nat) (s : State) : bool :=
  match nth_error (workers s) w with
  | Some wk => alive wk
  | None => false
  end.

Definition kill (w : nat) (s : State) : State :=
  set_workers (update w (fun wk => mkWorker false (startTimer wk) (timeoutTimer wk))
                 (workers s)) s.

Definition startTimerOf (w : nat) (s : State) : option nat :=
  match nth_error (workers s) w with
  | Some wk => startTimer wk
  | None => None
  end.

Definition timeoutTimerOf (w : nat) (s : State) : option nat :=
  match nth_error (workers s) w with
  | Some wk => timeoutTimer wk
  | None => None
  end.

(** [new Error(`Worker stopped with exit code ${code}`)] *)
Definition stoppedError (code : Z) : Error :=
  mkError ("Worker stopped with exit code " ++ render code)%string.

Definition consoleLog : Logger := fun str out => (out ++ [str])%list.

(** *** The script that runs inside an isolate

    The script is a few statements over the isolate's own port: messages
    posted to the caller, whether the port was closed, and a result that is
    either a value or a thrown error. *)
Record Port (M : Type) := mkPort {
  posted : list M;
  closed : bool
}.

Definition Script (M A : Type) := Port M -> Port M * (A + Error).

Definition ret {M A} (a : A) : Script M A := fun p => (p, inl a).

Definition throw {M A} (e : Error) : Script M A := fun p => (p, inr e).

Definition bind {M A B} (m : Script M A) (k : A -> Script M B) : Script M B :=
  fun p => match m p with
           | (p', inl a) => k a p'
           | (p', inr e) => (p', inr e)
           end.

(** [await runnable.apply(null, data)] *)
Definition await {M} (c : Completion) : Script M Value :=
  match c with
  | Normal v => ret v
  | Abrupt e => throw e
  end.

(** [parentPort.postMessage(m)] *)
Definition post {M} (m : M) : Script M unit :=
  fun p => (mkPort (posted p ++ [m]) (closed p), inl tt).

(** [parentPort.close()] *)
Definition closePort {M} : Script M unit :=
  fun p => (mkPort (posted p) true, inl tt).

(** [try { body } catch (error) { handler } finally { finalizer }] *)
Definition tryCatchFinally {M} (body : Script M unit) (handler : Error -> Script M unit)
    (finalizer : Script M unit) : Script M unit :=
  fun p =>
    let '(p1, r1) := match body p with
                     | (p', inl a) => (p', inl a)
                     | (p', inr e) => handler e p'
                     end in
    match finalizer p1 with
    | (p2, inl _) => (p2, r1)
    | (p2, inr e) => (p2, inr e)
    end.

(** What the caller can observe of one run of the script. *)
Record ScriptRun (M : Type) := mkScriptRun {
  messages : list M;
  portClosed : bool;
  uncaught : option Error
}.

Definition runScript {M} (scr : Script M unit) : ScriptRun M :=
  let '(p, r) := scr (mkPort [] false) in
  mkScriptRun (posted p) (closed p)
              match r with inl _ => None | inr e => Some e end.

(** The state in which the executor of [new Promise] starts. The [abort]
    event of a signal that is not yet aborted is the only task that does not
    come from the code. *)
Definition initial (options : option IRunnableOption) : State :=
  mkState 0 1
    match options with
    | Some o => match signal o with
                | Some (AbortsAt t) => [mkEntry t 0 AbortEvent]
                | _ => []
                end
    | None => []
    end
    [] [] Pending 0 None [].

(** ** Views of the options and of a run, used to state the properties *)

(** Delay before the arguments are posted. *)
Definition startDelay (o : IRunnableOption) : nat :=
  match startTime o with Some n => Z.to_nat n | None => 0 end.

(** Delay of the timeout timer, when one is created. *)
Definition timeoutDelay (o : IRunnableOption) : option nat :=
  match timeout o with
  | Some n => if truthy n then Some (Z.to_nat n) else None
  | None => None
  end.

(** Instant at which the signal fires during the invocation, if it does. *)
Definition abortTime (o : IRunnableOption) : option nat :=
  match signal o with Some (AbortsAt t) => Some t | _ => None end.

Definition retries (options : option IRunnableOption) : list Z :=
  match retriesWithIn (orDefault options) with Some l => l | None => [] end.

(** Instant, counted from the creation of the isolate, at which an isolate
    left alone reports to its owner. *)
Definition reportTime (b : Behaviour) (delay : nat) : option nat :=
  match b with
  | Completes after _ => Some (delay + after)
  | Hangs => None
  | Crashes after _ => Some after
  end.

Definition before (t : nat) (limit : option nat) : Prop :=
  match limit with Some l => t < l | None => True end.

Definition after_ (t : nat) (event : option nat) : Prop :=
  match event with Some t' => t < t' | None => True end.

Definition settled (p : Promise) : bool :=
  match p with Pending => false | _ => true end.

(** Error events: the computation throws, or the isolate fails. *)
Definition is_error_event (t : Task) : bool :=
  match t with
  | Settle _ (Abrupt _) | Crash _ _ => true
  | _ => false
  end.


(** The timers of worker [w] that are still pending. *)
Definition timer_of (w : nat) (t : Task) : bool :=
  match t with
  | StartTimer w' | TimeoutTimer w' => w' =? w
  | _ => false
  end.

Definition timers_pending (w : nat) (s : State) : list Entry :=
  filter (fun e => timer_of w (task e)) (queue s).

Definition is_timer (t : Task) : bool :=
  match t with
  | StartTimer _ | TimeoutTimer _ => true
  | _ => false
  end.

(** Every pending timer is the one its worker's listeners close over. *)
Definition timers_recorded (s : State) : Prop :=
  forall x, In x (queue s) ->
    match task x with
    | StartTimer w => startTimerOf w s = Some (id x)
    | TimeoutTimer w => timeoutTimerOf w s = Some (id x)
    | _ => True
    end.

(** [s'] comes from [s] by a handler that spawns no worker: the queue gains
    no timer, gains a retry only if [R] holds, and the timer variables of the
    workers are untouched. *)
Definition calm (R : Prop) (s s' : State) : Prop :=
  (forall x, In x (queue s') ->
     In x (queue s) \/ (is_timer (task x) = false /\ (task x = RetryTimer -> R))) /\
  (forall w, startTimerOf w s' = startTimerOf w s) /\
  (forall w, timeoutTimerOf w s' = timeoutTimerOf w s) /\
  length (workers s') = length (workers s).


(** Worker [w] exists and none of its timers is pending. *)
Definition timers_cleared (w : nat) (s : State) : Prop :=
  timers_pending w s = [] /\ w < length (workers s).

(** Tasks left behind by an isolate that is no longer running: when they
    fire they find their worker dead. *)
Definition stale (s : State) (t : Task) : bool :=
  match t with
  | Settle w _ | Crash w _ | StartTimer w => negb (is_alive w s)
  | _ => false
  end.

(** Computations used in the examples. *)
Definition add : IRunnable :=
  fun _ ps => Completes 3 (Normal (fold_left Z.add ps 0%Z)).


Definition hang : IRunnable := fun _ _ => Hangs.


Definition broken : IRunnable := fun _ _ => Crashes 1 (mkError "SyntaxError").

(** ** The worker_threads variant ([src/node/index.ts]) *)

Module Node.

(** The script of [createWorker]: the result is posted as it is, the port is
    closed, and nothing catches a throw of the computation. *)
Definition script (c : Completion) : Script Value unit :=
  bind (await c) (fun result =>
  bind (post result) (fun _ =>
  closePort)).

Section Invocation.

Variable runnable : IRunnable.
Variable options : option IRunnableOption.
Variable params : list Value.

(** [worker.terminate()]: a running worker stops and emits "exit" with
    code 1; on a worker that has exited it does nothing. *)
Definition terminate (w : nat) (s : State) : State :=
  if is_alive w s then schedule 0 (ExitEvent w 1) (kill w s) else s.

(** [worker.postMessage(params)]: the arguments reach the script, which
    runs the computation; a worker that has stopped ignores them. *)
Definition postMessage (w : nat) (s : State) : State :=
  if is_alive w s then
    match runnable w params with
    | Completes after c => schedule after (Settle w c) s
    | _ => s
    end
  else s.

(** [new Worker(script, { eval: true })] *)
Definition newWorker (s : State) : nat * State :=
  let w := length (workers s) in
  let s := set_workers (workers s ++ [mkWorker true None None]) s in
  (w, match runnable w params with
      | Crashes after e => schedule after (Crash w e) s
      | _ => s
      end).

Definition createWorker (s : State) : nat * State :=
  let o := orDefault options in
  let startTime := match startTime o with Some n => n | None => 0%Z end in
  let '(worker, s) := newWorker s in
  let s := match signal o with
           | Some _ => set_abortListeners (abortListeners s ++ [worker]) s
           | None => s
           end in
  let '(startTimer, s) :=
    if truthy startTime then
      let '(t, s) := setTimeout (StartTimer worker) startTime s in (Some t, s)
    else (None, postMessage worker s) in
  let '(timeoutTimer, s) :=
    match timeout o with
    | Some ms =>
        if truthy ms then
          let '(t, s) := setTimeout (TimeoutTimer worker) ms s in (Some t, s)
        else (None, s)
    | None => (None, s)
    end in
  (worker,
   set_workers (update worker (fun wk => mkWorker (alive wk) startTimer timeoutTimer)
                  (workers s)) s).

Definition retriesWithIn' : list Z :=
  match options with
  | Some o => match retriesWithIn o with Some l => l | None => [] end
  | None => []
  end.

Definition logger' : Logger :=
  match options with
  | Some o => match logger o with Some l => l | None => consoleLog end
  | None => consoleLog
  end.

Definition exitHandler (code : Z) (s : State) : State :=
  if (code =? 0)%Z then s
  else if retryCount s <? length retriesWithIn' then
    let retryTimeout := nth (retryCount s) retriesWithIn' 0%Z in
    let s := set_retryCount (S (retryCount s)) s in
    let s := set_logged
               (logger' ("Retry with in " ++ render retryTimeout ++ "ms")%string (logged s)) s in
    snd (setTimeout RetryTimer retryTimeout s)
  else
    reject (match errorInstance s with
            | Some e => e
            | None => stoppedError code
            end) s.

Definition tryExecution (s : State) : State := snd (createWorker s).

(** The listeners of one worker. *)

(** "message": first the listener of [createWorker], then [resolve]. *)
Definition onMessage (w : nat) (data : Value) (s : State) : State :=
  let s := clearTimeout (timeoutTimerOf w s) s in
  let s := clearTimeout (startTimerOf w s) s in
  resolve data s.

(** "error": [(error) => (errorInstance = error)] *)
Definition onError (e : Error) (s : State) : State :=
  set_errorInstance (Some e) s.

(** A worker whose script lets an error escape emits "error" and exits with
    code 1; one that closed its port exits with code 0. *)
Definition finish (w : nat) (r : ScriptRun Value) (s : State) : State :=
  let s := fold_left (fun s data => onMessage w data s) (messages r) s in
  match uncaught r with
  | Some e => schedule 0 (ExitEvent w 1) (kill w (onError e s))
  | None => if portClosed r then schedule 0 (ExitEvent w 0) (kill w s) else s
  end.

Definition handle (t : Task) (s : State) : State :=
  match t with
  | StartTimer w => postMessage w s
  | TimeoutTimer w => clearTimeout (startTimerOf w s) (terminate w s)
  | RetryTimer => tryExecution s
  | AbortEvent =>
      fold_left (fun s w => terminate w s) (abortListeners s)
                (set_abortListeners [] s)
  | Settle w c => if is_alive w s then finish w (runScript (script c)) s else s
  | Crash w e =>
      if is_alive w s then schedule 0 (ExitEvent w 1) (kill w (onError e s)) else s
  | ExitEvent w code => exitHandler code s
  end.

Definition step (s : State) : option State :=
  match queue s with
  | [] => None
  | e :: q => Some (handle (task e) (set_queue q (set_now (due e) s)))
  end.

Fixpoint run (fuel : nat) (s : State) : State :=
  match fuel with
  | O => s
  | S fuel' => match step s with
               | Some s' => run fuel' s'
               | None => s
               end
  end.

(** No task among the next [fuel] ones is an error event. *)
Fixpoint quiet (fuel : nat) (s : State) : bool :=
  match fuel with
  | O => true
  | S fuel' =>
      match queue s with
      | [] => true
      | e :: _ =>
          negb (is_error_event (task e)) &&
          match step s with
          | Some s' => quiet fuel' s'
          | None => true
          end
      end
  end.

(** [createPool(runnable, options)(...params)]: the state right after the
    executor of the promise has run. *)
Definition createPool : State := tryExecution (initial options).

End Invocation.

End Node.

(** ** The Web Worker variant ([src/lib/web/index.ts]) *)

Module Web.

(** The script of [createWorker]: [try] posts the awaited result tagged
    success, [catch] posts the error tagged error, [finally] closes the
    isolate. *)
Definition script (c : Completion) : Script IResponse unit :=
  tryCatchFinally
    (bind (await c) (fun content => post (success content)))
    (fun err => post (error err))
    closePort.

Section Invocation.

Variable runnable : IRunnable.
Variable options : option IRunnableOption.
Variable params : list Value.

(** [worker.terminate()]: the isolate stops; a Web Worker reports nothing
    to its owner when it is terminated. *)
Definition terminate (w : nat) (s : State) : State :=
  if is_alive w s then kill w s else s.

Definition postMessage (w : nat) (s : State) : State :=
  if is_alive w s then
    match runnable w params with
    | Completes after c => schedule after (Settle w c) s
    | _ => s
    end
  else s.

(** [new Worker(window.URL.createObjectURL(blob))] *)
Definition newWorker (s : State) : nat * State :=
  let w := length (workers s) in
  let s := set_workers (workers s ++ [mkWorker true None None]) s in
  (w, match runnable w params with
      | Crashes after e => schedule after (Crash w e) s
      | _ => s
      end).

Definition createWorker (s : State) : nat * State :=
  let o := orDefault options in
  let startTime := match startTime o with Some n => n | None => 0%Z end in
  let '(worker, s) := newWorker s in
  let s := match signal o with
           | Some _ => set_abortListeners (abortListeners s ++ [worker]) s
           | None => s
           end in
  let '(startTimer, s) :=
    if truthy startTime then
      let '(t, s) := setTimeout (StartTimer worker) startTime s in (Some t, s)
    else (None, postMessage worker s) in
  let '(timeoutTimer, s) :=
    match timeout o with
    | Some ms =>
        if truthy ms then
          let '(t, s) := setTimeout (TimeoutTimer worker) ms s in (Some t, s)
        else (None, s)
    | None => (None, s)
    end in
  (worker,
   set_workers (update worker (fun wk => mkWorker (alive wk) startTimer timeoutTimer)
                  (workers s)) s).

Definition retriesWithIn' : list Z :=
  match options with
  | Some o => match retriesWithIn o with Some l => l | None => [] end
  | None => []
  end.

Definition logger' : Logger :=
  match options with
  | Some o => match logger o with Some l => l | None => consoleLog end
  | None => consoleLog
  end.

Definition exitHandler (code : Z) (s : State) : State :=
  if (code =? 0)%Z then s
  else if retryCount s <? length retriesWithIn' then
    let retryTimeout := nth (retryCount s) retriesWithIn' 0%Z in
    let s := set_retryCount (S (retryCount s)) s in
    let s := set_logged
               (logger' ("Retry with in " ++ render retryTimeout ++ "ms")%string (logged s)) s in
    snd (setTimeout RetryTimer retryTimeout s)
  else
    reject (match errorInstance s with
            | Some e => e
            | None => stoppedError code
            end) s.

Definition tryExecution (s : State) : State := snd (createWorker s).

(** [worker.dispatchEvent(new ExitEvent(code))] runs the "exit" listener,
    and with it [exitHandler], before it returns. *)
Definition dispatchExit (code : Z) (s : State) : State := exitHandler code s.

(** "message": first the listener of [createWorker], then the one of
    [tryExecution]. *)
Definition onMessage (w : nat) (data : IResponse) (s : State) : State :=
  let s := clearTimeout (timeoutTimerOf w s) s in
  let s := clearTimeout (startTimerOf w s) s in
  match data with
  | success content => dispatchExit 0 (resolve content s)
  | error e => dispatchExit 1 (set_errorInstance (Some e) s)
  end.

(** "error" *)
Definition onError (e : Error) (s : State) : State :=
  dispatchExit 1 (set_errorInstance (Some e) s).

Definition finish (w : nat) (r : ScriptRun IResponse) (s : State) : State :=
  let s := if portClosed r then kill w s else s in
  let s := fold_left (fun s data => onMessage w data s) (messages r) s in
  match uncaught r with
  | Some e => onError e s
  | None => s
  end.

Definition handle (t : Task) (s : State) : State :=
  match t with
  | StartTimer w => postMessage w s
  | TimeoutTimer w => clearTimeout (startTimerOf w s) (terminate w s)
  | RetryTimer => tryExecution s
  | AbortEvent =>
      fold_left (fun s w => terminate w s) (abortListeners s)
                (set_abortListeners [] s)
  | Settle w c => if is_alive w s then finish w (runScript (script c)) s else s
  | Crash w e => if is_alive w s then onError e s else s
  | ExitEvent _ _ => s            (* a Web Worker has no "exit" of its own *)
  end.

Definition step (s : State) : option State :=
  match queue s with
  | [] => None
  | e :: q => Some (handle (task e) (set_queue q (set_now (due e) s)))
  end.

Fixpoint run (fuel : nat) (s : State) : State :=
  match fuel with
  | O => s
  | S fuel' => match step s with
               | Some s' => run fuel' s'
               | None => s
               end
  end.

(** No task among the next [fuel] ones is an error event. *)
Fixpoint quiet (fuel : nat) (s : State) : bool :=
  match fuel with
  | O => true
  | S fuel' =>
      match queue s with
      | [] => true
      | e :: _ =>
          negb (is_error_event (task e)) &&
          match step s with
          | Some s' => quiet fuel' s'
          | None => true
          end
      end
  end.

(** [createPool(runnable, options)(...params)] *)
Definition createPool : State := tryExecution (initial options).

End Invocation.

End Web.

Unset Implicit Arguments.

(** ** Views used by the properties of whole invocations *)




Definition is_retry (t : Task) : bool :=
  match t with RetryTimer => true | _ => false end.

Definition is_exit (t : Task) : bool :=
  match t with ExitEvent _ _ => true | _ => false end.


(** Every isolate has stopped and no retry is scheduled. *)
Definition all_stopped (s : State) : Prop :=
  forallb (fun wk => negb (alive wk)) (workers s) = true /\
  forallb (fun e => negb (is_retry (task e))) (queue s) = true.

(** Number of retries that are scheduled and have not fired. *)
Definition retries_pending (s : State) : nat :=
  length (filter (fun e => is_retry (task e)) (queue s)).

(** Number of "exit" events that have not been handled yet. *)
Definition exits_pending (s : State) : nat :=
  length (filter (fun e => is_exit (task e)) (queue s)).

(** Number of workers that are running. *)
Definition running (s : State) : nat := length (filter alive (workers s)).

(** Workers that run, events counted by [c] that are not handled yet and
    retries that have not fired yet. *)
Definition load (c : Task -> bool) (s : State) : nat :=
  running s + length (filter (fun e => c (task e)) (queue s)) + retries_pending s.


(** [options?.logger || log] *)
Definition loggerOf (options : option IRunnableOption) : Logger :=
  match logger (orDefault options) with Some l => l | None => consoleLog end.

(** [`Retry with in ${retryTimeout}ms`] *)
Definition retryNotice (retryTimeout : Z) : string :=
  ("Retry with in " ++ render retryTimeout ++ "ms")%string.

(** What the logger has produced once it was handed the notices of the
    first [n] retries, in order. *)
Definition expectedLog (options : option IRunnableOption) (n : nat) : list string :=
  fold_left (fun out r => loggerOf options (retryNotice r) out)
            (firstn n (retries options)) [].

(** [s'] comes from [s] by code that creates no worker and makes no
    retry. *)
Definition still (s s' : State) : Prop :=
  length (workers s') = length (workers s) /\
  retryCount s' = retryCount s /\ logged s' = logged s /\
  retries_pending s' <= retries_pending s.

(** [s'] comes from [s] by code that creates no worker and goes through
    [exitHandler] at most once. *)
Definition paced (options : option IRunnableOption) (s s' : State) : Prop :=
  still s s' \/
  (length (workers s') = length (workers s) /\
   retryCount s < length (retries options) /\
   retryCount s' = S (retryCount s) /\
   logged s' = loggerOf options
                 (retryNotice (nth (retryCount s) (retries options) 0%Z)) (logged s) /\
   retries_pending s' <= S (retries_pending s)).

(** The bookkeeping of the retries agrees with the workers and the log. *)
Definition accounted (options : option IRunnableOption) (s : State) : Prop :=
  retryCount s <= length (retries options) /\
  logged s = expectedLog options (retryCount s) /\
  length (workers s) + retries_pending s <= S (retryCount s).

(** Tasks through which the arguments reach the computation and its result
    comes back. *)
Definition is_delivery (t : Task) : bool :=
  match t with StartTimer _ | Settle _ _ => true | _ => false end.

(** The clock shows [nw]; the queue is in firing order and holds nothing due
    in the past; nothing is delivered before the instant [D]; the tasks have
    distinct numbers, all below the next number to be given. *)
Definition sound (D nw : nat) (s : State) : Prop :=
  now s = nw /\
  StronglySorted (fun a b => due a <= due b) (queue s) /\
  Forall (fun x => nw <= due x /\ (is_delivery (task x) = true -> D <= due x)) (queue s) /\
  NoDup (map id (queue s)) /\
  Forall (fun x => id x < seq s) (queue s).

(** The start delay has elapsed whenever the promise is resolved. *)
Definition waited (options : option IRunnableOption) (s : State) : Prop :=
  sound (startDelay (orDefault options)) (now s) s /\
  forall v, promise s = Resolved v -> startDelay (orDefault options) <= now s.


(** * Properties *)

(** ** Lists of isolate handles *)

Lemma nth_error_snoc (ws : list Worker) x :
  nth_error (ws ++ [x]) (length ws) = Some x.
Proof. induction ws; simpl; auto. Qed.

Lemma update_snoc f (ws : list Worker) x :
  update (length ws) f (ws ++ [x]) = ws ++ [f x].
Proof. induction ws; simpl; congruence. Qed.

Lemma update_length f w (ws : list Worker) : length (update w f ws) = length ws.
Proof. revert w; induction ws; intros [|w]; simpl; auto. Qed.

Lemma truthy_false n : truthy n = false -> n = 0%Z.
Proof. unfold truthy. destruct (Z.eqb_spec n 0); auto; discriminate. Qed.

(** ** Symbolic evaluation

    A call is unfolded only once the state it receives is in constructor
    form, so that the conditions it tests can be settled one at a time. *)

Ltac head t := lazymatch t with ?f _ => head f | _ => t end.

Ltac unfold_call t :=
  let h := head t in
  lazymatch h with
  | @mkState => fail
  | Node.exitHandler => fail
  | Web.exitHandler => fail
  | Node.run => fail
  | Web.run => fail
  | _ => idtac
  end;
  let t' := eval cbv beta iota zeta delta
       [h now seq queue workers abortListeners promise retryCount errorInstance logged
        fst snd orDefault noOption signal startTime timeout retriesWithIn logger
        posted closed messages portClosed uncaught runScript Node.script Web.script
        bind ret throw await post closePort tryCatchFinally app] in t in
  lazymatch t' with
  | t => fail
  | _ => let E := fresh "E" in
         assert (E : t = t') by exact (eq_refl t');
         rewrite E; clear E
  end.

Ltac run1 :=
  match goal with
  | |- context [Node.run ?r ?o ?p O ?s] => change (Node.run r o p O s) with s
  | |- context [Web.run ?r ?o ?p O ?s] => change (Web.run r o p O s) with s
  | |- context [Node.run ?r ?o ?p ?n (mkState ?a ?b ?c ?d ?e ?g ?h ?i ?j)] =>
      let s := constr:(mkState a b c d e g h i j) in
      lazymatch n with
      | O => change (Node.run r o p n s) with s
      | S ?m =>
          change (Node.run r o p n s)
            with (match Node.step r o p s with
                  | Some s' => Node.run r o p m s'
                  | None => s
                  end)
      end
  | |- context [Web.run ?r ?o ?p ?n (mkState ?a ?b ?c ?d ?e ?g ?h ?i ?j)] =>
      let s := constr:(mkState a b c d e g h i j) in
      lazymatch n with
      | O => change (Web.run r o p n s) with s
      | S ?m =>
          change (Web.run r o p n s)
            with (match Web.step r o p s with
                  | Some s' => Web.run r o p m s'
                  | None => s
                  end)
      end
  end.

Ltac ev1 :=
  match goal with
  | |- context [?f (mkState ?a ?b ?c ?d ?e ?g ?h ?i ?j)] =>
      unfold_call (f (mkState a b c d e g h i j))
  | _ => run1
  end.

Ltac tidy :=
  cbn [enqueue filter fold_left nth_error update app length due id task alive
       startTimer timeoutTimer negb Nat.eqb Nat.add fst snd];
  change (truthy 0) with false;
  rewrite ?nth_error_snoc, ?update_snoc, ?Nat.add_0_r.


(** The cases of the options that the code tells apart. *)
Ltac split_options options :=
  destruct options as [[[sg|] [st|] [to|] rw lgr]|];
  try (destruct (truthy st) eqn:Est);
  try (destruct (truthy to) eqn:Eto).

(** ** The retry loop of the worker_threads variant *)

Section NodeRun.

Variable runnable : IRunnable.
Variable options : option IRunnableOption.
Variable params : list Value.

Local Abbreviation run := (Node.run runnable options params).
Local Abbreviation step := (Node.step runnable options params).
Local Abbreviation tryExecution := (Node.tryExecution runnable options params).
Local Abbreviation exitHandler := (Node.exitHandler options).

Lemma node_run_S n s :
  run (S n) s = match step s with Some s' => run n s' | None => s end.
Proof. reflexivity. Qed.


Lemma node_run_idle n s : queue s = [] -> run n s = s.
Proof. intros H. destruct n; simpl; auto. unfold Node.step. rewrite H. auto. Qed.

Lemma node_retries_eq : Node.retriesWithIn' options = retries options.
Proof. destruct options; reflexivity. Qed.





End NodeRun.

(** ** The retry loop of the Web Worker variant *)

Section WebRun.

Variable runnable : IRunnable.
Variable options : option IRunnableOption.
Variable params : list Value.

Local Abbreviation run := (Web.run runnable options params).
Local Abbreviation step := (Web.step runnable options params).
Local Abbreviation tryExecution := (Web.tryExecution runnable options params).
Local Abbreviation exitHandler := (Web.exitHandler options).

Lemma web_run_S n s :
  run (S n) s = match step s with Some s' => run n s' | None => s end.
Proof. reflexivity. Qed.

Lemma web_run_add n m s : run (n + m) s = run m (run n s).
Proof.
  revert s; induction n as [|n IH]; intros s; simpl; auto.
  destruct (step s) eqn:E; auto.
  destruct m; simpl; auto. rewrite E. auto.
Qed.

Lemma web_run_idle n s : queue s = [] -> run n s = s.
Proof. intros H. destruct n; simpl; auto. unfold Web.step. rewrite H. auto. Qed.






End WebRun.



(** Settles the comparisons of due times left by [enqueue]. *)
Ltac cmp :=
  repeat match goal with
         | |- context [?a <? ?b] =>
             destruct (Nat.ltb_spec a b); try lia
         end.

Ltac settle_truthy :=
  repeat match goal with
         | H : truthy ?x = _ |- context [truthy ?x] => rewrite H
         end.

Ltac exit0 :=
  repeat match goal with
         | |- context [Node.exitHandler ?o 0%Z ?s] =>
             change (Node.exitHandler o 0%Z s) with s
         | |- context [Web.exitHandler ?o 0%Z ?s] =>
             change (Web.exitHandler o 0%Z s) with s
         end.

Ltac exec rw :=
  repeat first [ progress tidy
               | progress cmp
               | rw
               | progress settle_truthy
               | progress exit0
               | ev1 ].

(** To evaluate a run once and then read several fields of its result. *)
Lemma name_state (P : State -> Prop) (s : State) :
  (forall s', s = s' -> P s') -> P s.
Proof. auto. Qed.


Ltac read_state :=
  cbn [now seq queue workers abortListeners promise retryCount errorInstance logged
       is_alive timers_pending timer_of filter nth_error alive task length Nat.eqb
       forallb stale negb andb].


(** ** A worker stopped by its timeout (worker_threads variant) *)

Section NodeTimeout.

Variable runnable : IRunnable.
Variable options : option IRunnableOption.
Variable params : list Value.

Lemma initial_quiet :
  abortTime (orDefault options) = None ->
  initial options = mkState 0 1 [] [] [] Pending 0 None [].
Proof. destruct options as [[[[]|] ? ? ? ?]|]; try reflexivity; discriminate. Qed.


Lemma enqueue_split x q :
  exists q1 q2, enqueue x q = q1 ++ x :: q2 /\ q = q1 ++ q2.
Proof.
  induction q as [|y q (q1 & q2 & E1 & E2)]; simpl.
  - exists [], []. auto.
  - destruct (due x <? due y).
    + exists [], (y :: q). auto.
    + exists (y :: q1), q2. simpl. rewrite E1, E2. auto.
Qed.



End NodeTimeout.

(** ** What a task can change *)

(** Case analysis on every test a handler makes, innermost first. *)
Ltac break_match :=
  repeat match goal with
         | |- context [match ?x with _ => _ end] =>
             lazymatch x with
             | context [match _ with _ => _ end] => fail
             | _ => destruct x; cbn
             end
         end.

Section NodeFrame.

Variable runnable : IRunnable.
Variable options : option IRunnableOption.
Variable params : list Value.

Local Abbreviation handle := (Node.handle runnable options params).
Local Abbreviation step := (Node.step runnable options params).
Local Abbreviation run := (Node.run runnable options params).
Local Abbreviation quiet := (Node.quiet runnable options params).

Lemma node_terminate_frame w s :
  promise (Node.terminate w s) = promise s /\
  errorInstance (Node.terminate w s) = errorInstance s.
Proof. unfold Node.terminate. destruct (is_alive w s); auto. Qed.

Lemma node_abort_frame l : forall s,
  promise (fold_left (fun s w => Node.terminate w s) l s) = promise s /\
  errorInstance (fold_left (fun s w => Node.terminate w s) l s) = errorInstance s.
Proof.
  induction l as [|w l IH]; intros s; cbn; auto.
  destruct (IH (Node.terminate w s)) as [-> ->]. apply node_terminate_frame.
Qed.

Lemma node_tryExecution_frame s :
  let s' := Node.tryExecution runnable options params s in
  promise s' = promise s /\ errorInstance s' = errorInstance s /\
  now s' = now s /\ length (workers s') = S (length (workers s)).
Proof.
  unfold Node.tryExecution, Node.createWorker, Node.newWorker, Node.postMessage, setTimeout.
  cbn. break_match; rewrite ?update_length, ?length_app; cbn; repeat split; lia.
Qed.

(** Once the promise is settled, no task changes it. *)
Lemma node_handle_settled t s :
  settled (promise s) = true -> promise (handle t s) = promise s.
Proof.
  intros H. destruct t; cbn [Node.handle].
  - unfold Node.postMessage. break_match; reflexivity.
  - unfold clearTimeout.
    destruct (startTimerOf w s); cbn; exact (proj1 (node_terminate_frame w s)).
  - exact (proj1 (node_tryExecution_frame s)).
  - exact (proj1 (node_abort_frame (abortListeners s) (set_abortListeners [] s))).
  - unfold Node.finish, Node.onMessage, Node.onError, resolve, clearTimeout.
    destruct s as [nw sq q ws al [] rc ei lg]; try discriminate;
      destruct c; cbn; break_match; reflexivity.
  - break_match; reflexivity.
  - unfold Node.exitHandler, reject. destruct (promise s) eqn:E; try discriminate;
      break_match; auto.
Qed.

Lemma node_run_settled n : forall s,
  settled (promise s) = true -> promise (run n s) = promise s.
Proof.
  induction n as [|n IH]; intros s H; cbn; auto.
  unfold Node.step. destruct s as [nw sq [|x q] ws al p rc ei lg]; cbn; auto.
  rewrite IH; rewrite node_handle_settled; auto.
Qed.






End NodeFrame.

Section WebFrame.

Variable runnable : IRunnable.
Variable options : option IRunnableOption.
Variable params : list Value.

Local Abbreviation handle := (Web.handle runnable options params).
Local Abbreviation step := (Web.step runnable options params).
Local Abbreviation run := (Web.run runnable options params).
Local Abbreviation quiet := (Web.quiet runnable options params).

Lemma web_terminate_frame w s :
  promise (Web.terminate w s) = promise s /\
  errorInstance (Web.terminate w s) = errorInstance s.
Proof. unfold Web.terminate. destruct (is_alive w s); auto. Qed.

Lemma web_abort_frame l : forall s,
  promise (fold_left (fun s w => Web.terminate w s) l s) = promise s /\
  errorInstance (fold_left (fun s w => Web.terminate w s) l s) = errorInstance s.
Proof.
  induction l as [|w l IH]; intros s; cbn; auto.
  destruct (IH (Web.terminate w s)) as [-> ->]. apply web_terminate_frame.
Qed.

Lemma web_tryExecution_frame s :
  let s' := Web.tryExecution runnable options params s in
  promise s' = promise s /\ errorInstance s' = errorInstance s /\
  now s' = now s /\ length (workers s') = S (length (workers s)).
Proof.
  unfold Web.tryExecution, Web.createWorker, Web.newWorker, Web.postMessage, setTimeout.
  cbn. break_match; rewrite ?update_length, ?length_app; cbn; repeat split; lia.
Qed.

Lemma web_handle_settled t s :
  settled (promise s) = true -> promise (handle t s) = promise s.
Proof.
  intros H. destruct t; cbn [Web.handle].
  - unfold Web.postMessage. break_match; reflexivity.
  - unfold clearTimeout.
    destruct (startTimerOf w s); cbn; exact (proj1 (web_terminate_frame w s)).
  - exact (proj1 (web_tryExecution_frame s)).
  - exact (proj1 (web_abort_frame (abortListeners s) (set_abortListeners [] s))).
  - unfold Web.finish, Web.onMessage, Web.onError, Web.dispatchExit, Web.exitHandler,
      resolve, reject, clearTimeout.
    destruct s as [nw sq q ws al [] rc ei lg]; try discriminate;
      destruct c; cbn; break_match; reflexivity.
  - unfold Web.onError, Web.dispatchExit, Web.exitHandler, reject.
    destruct s as [nw sq q ws al [] rc ei lg]; try discriminate; cbn; break_match; reflexivity.
  - reflexivity.
Qed.

Lemma web_run_settled n : forall s,
  settled (promise s) = true -> promise (run n s) = promise s.
Proof.
  induction n as [|n IH]; intros s H; cbn; auto.
  unfold Web.step. destruct s as [nw sq [|x q] ws al p rc ei lg]; cbn; auto.
  rewrite IH; rewrite web_handle_settled; auto.
Qed.







End WebFrame.

(** ** C1: a first attempt that succeeds *)



(** ** C3: the promise settles at most once *)

(** C3 (as stated, refuted). A computation that never completes, run with
    no timeout, leaves the promise pending for ever. *)
Lemma promise_can_stay_pending :
  ~ exists fuel,
      settled (promise (Node.run hang None [] fuel (Node.createPool hang None [])))
      = true.
Proof.
  intros [fuel H]. rewrite node_run_idle in H by reflexivity. discriminate.
Qed.

(** C3 (amended). Once the promise is resolved or rejected, no later task
    of the invocation changes it, in either variant: it settles at most
    once. *)
Theorem promise_settles_at_most_once
    (runnable : IRunnable) (options : option IRunnableOption) (params : list Value)
    (s : State) (n : nat) :
  settled (promise s) = true ->
  promise (Node.run runnable options params n s) = promise s /\
  promise (Web.run runnable options params n s) = promise s.
Proof.
  intros H. split; [apply node_run_settled | apply web_run_settled]; exact H.
Qed.

Lemma promise_settles_at_most_once_witness :
  let s := Node.run add None [2; 3]%Z 1 (Node.createPool add None [2; 3]%Z) in
  settled (promise s) = true /\
  promise (Node.run add None [2; 3]%Z 5 s) = promise s /\
  promise (Web.run add None [2; 3]%Z 5 s) = promise s.
Proof.
  split; [reflexivity|].
  apply (promise_settles_at_most_once add None [2; 3]%Z); reflexivity.
Defined.

(** ** C9: the recorded error outlives the attempt that produced it *)



(** ** C10: a zero timeout or start time behaves like an absent one *)




(** ** C5: expiry of the timeout *)






(** ** C4: cancellation while a worker runs *)

Section NodeAbort.

Variable runnable : IRunnable.
Variable options : option IRunnableOption.
Variable params : list Value.


End NodeAbort.




(** ** C6: what the script sends back *)

(** C6 (as stated, refuted). In the worker_threads variant a computation
    that throws sends no message at all; its error escapes the script. *)
Lemma node_script_lets_errors_escape :
  runScript (Node.script (Abrupt (mkError "boom")))
  = mkScriptRun [] false (Some (mkError "boom")).
Proof. reflexivity. Qed.

(** C6 (amended). The script of the Web Worker variant answers a completed
    computation with exactly one tagged message, success with the returned
    value or error with the thrown error, and lets nothing escape: the caller
    sees one message event. The script of the worker_threads variant posts a
    returned value as it is, and does not catch a throw: it posts nothing and
    the error escapes, so that the caller sees no message but the error
    event of the worker, followed by its exit with code 1. *)
Theorem script_reports_outcome :
  (forall c,
     runScript (Web.script c)
     = mkScriptRun [match c with Normal v => success v | Abrupt e => error e end]
                   true None) /\
  (forall v, runScript (Node.script (Normal v)) = mkScriptRun [v] true None) /\
  (forall e, runScript (Node.script (Abrupt e)) = mkScriptRun [] false (Some e)) /\
  (forall options w c s,
     Web.finish options w (runScript (Web.script c)) s
     = Web.onMessage options w
         match c with Normal v => success v | Abrupt e => error e end
         (kill w s)) /\
  (forall w e s,
     Node.finish w (runScript (Node.script (Abrupt e))) s
     = schedule 0 (ExitEvent w 1) (kill w (Node.onError e s))).
Proof.
  repeat split; try (intros []; reflexivity).
  intros options w [] s; reflexivity.
Qed.

(** ** C7: the timers of a worker that has reported *)

(** C7 (as stated, refuted). An isolate that fails outside the computation
    raises the error event of its worker; both timers of that worker are
    still pending afterwards. *)
Lemma runtime_error_clears_no_timer :
  let options := Some (mkOption None (Some 5%Z) (Some 10%Z) None None) in
  let s := Web.run broken options [] 1 (Web.createPool broken options []) in
  errorInstance s = Some (mkError "SyntaxError") /\
  timers_pending 0 s = [mkEntry 5 2 (StartTimer 0); mkEntry 10 3 (TimeoutTimer 0)].
Proof. repeat split. Qed.

(** ** Timers: what is pending is what the listeners can clear *)

Lemma In_enqueue_iff x e q : In x (enqueue e q) <-> x = e \/ In x q.
Proof.
  induction q as [|y q IH]; cbn [enqueue In].
  - intuition.
  - destruct (due e <? due y); cbn [In]; intuition.
Qed.

Lemma nth_error_update f w : forall (ws : list Worker) w',
  nth_error (update w f ws) w' =
  if w =? w' then option_map f (nth_error ws w') else nth_error ws w'.
Proof.
  induction w as [|w IH]; intros [|x ws] [|w']; cbn; auto.
  destruct (w =? w'); reflexivity.
Qed.

Section Calm.

Variable R : Prop.

Lemma calm_refl s : calm R s s.
Proof. unfold calm. auto. Qed.

Lemma calm_trans s1 s2 s3 : calm R s1 s2 -> calm R s2 s3 -> calm R s1 s3.
Proof.
  intros (Q1 & S1 & T1 & L1) (Q2 & S2 & T2 & L2). unfold calm. repeat split.
  - intros x Hx. destruct (Q2 x Hx); auto.
  - intros w. rewrite S2. apply S1.
  - intros w. rewrite T2. apply T1.
  - congruence.
Qed.

Lemma calm_same s s' :
  queue s' = queue s -> workers s' = workers s -> calm R s s'.
Proof.
  intros Hq Hw. unfold calm, startTimerOf, timeoutTimerOf. rewrite Hq, Hw. auto.
Qed.

Lemma calm_schedule d t s :
  is_timer t = false -> (t = RetryTimer -> R) -> calm R s (schedule d t s).
Proof.
  intros Ht Hr. unfold calm. repeat split; auto.
  intros x Hx. cbn in Hx. apply In_enqueue_iff in Hx as [->|Hx]; auto.
Qed.

Lemma calm_clearTimeout i s : calm R s (clearTimeout i s).
Proof.
  destruct i as [i|]; [|apply calm_refl].
  unfold calm. repeat split; auto.
  intros x Hx. cbn in Hx. apply filter_In in Hx as [Hx _]. auto.
Qed.

Lemma calm_kill w s : calm R s (kill w s).
Proof.
  unfold calm, startTimerOf, timeoutTimerOf. cbn. repeat split; auto.
  - intros w'. rewrite nth_error_update.
    destruct (w =? w'); auto. destruct (nth_error (workers s) w'); reflexivity.
  - intros w'. rewrite nth_error_update.
    destruct (w =? w'); auto. destruct (nth_error (workers s) w'); reflexivity.
  - apply update_length.
Qed.

Lemma calm_pop s x q d : queue s = x :: q -> calm R s (set_queue q (set_now d s)).
Proof.
  intros Hq. unfold calm. repeat split; auto.
  intros y Hy. cbn in Hy. rewrite Hq. left. right. exact Hy.
Qed.

Lemma calm_resolve v s : calm R s (resolve v s).
Proof. unfold resolve. destruct (promise s); apply calm_same; reflexivity. Qed.

Lemma calm_reject e s : calm R s (reject e s).
Proof. unfold reject. destruct (promise s); apply calm_same; reflexivity. Qed.

End Calm.

(** [exitHandler] schedules a retry only when [retriesWithIn] is not
    empty. *)
Lemma calm_exitHandler options code s :
  calm (retries options <> []) s (Node.exitHandler options code s).
Proof.
  unfold Node.exitHandler. rewrite node_retries_eq.
  destruct (code =? 0)%Z; [apply calm_refl|].
  destruct (Nat.ltb_spec (retryCount s) (length (retries options))); [|apply calm_reject].
  unfold setTimeout. cbn [snd].
  eapply calm_trans; [|apply calm_schedule; [reflexivity|]].
  - apply calm_same; reflexivity.
  - intros _ E. rewrite E in *. cbn in *. lia.
Qed.

Ltac calm_one :=
  lazymatch goal with
  | |- calm _ ?a _ =>
      first [ apply calm_schedule; [reflexivity | discriminate]
            | apply calm_clearTimeout
            | apply calm_kill
            | apply calm_resolve
            | apply calm_reject
            | apply calm_exitHandler
            | (tryif is_evar a then fail else (apply calm_same; reflexivity)) ]
  end.

Ltac calm_chain :=
  repeat first [ apply calm_refl
               | calm_one
               | (eapply calm_trans; [| calm_one ]) ].

Lemma calm_node_terminate R w s : calm R s (Node.terminate w s).
Proof. unfold Node.terminate. destruct (is_alive w s); calm_chain. Qed.

Lemma calm_web_terminate R w s : calm R s (Web.terminate w s).
Proof. unfold Web.terminate. destruct (is_alive w s); calm_chain. Qed.

Lemma calm_node_abort R l : forall s,
  calm R s (fold_left (fun s w => Node.terminate w s) l s).
Proof.
  induction l as [|w l IH]; intros s; cbn; [apply calm_refl|].
  eapply calm_trans; [apply calm_node_terminate | apply IH].
Qed.

Lemma calm_web_abort R l : forall s,
  calm R s (fold_left (fun s w => Web.terminate w s) l s).
Proof.
  induction l as [|w l IH]; intros s; cbn; [apply calm_refl|].
  eapply calm_trans; [apply calm_web_terminate | apply IH].
Qed.

Lemma calm_postMessage R runnable params w s :
  calm R s (Node.postMessage runnable params w s).
Proof.
  unfold Node.postMessage. destruct (is_alive w s); [|apply calm_refl].
  destruct (runnable w params); calm_chain.
Qed.

Lemma calm_web_onMessage options w m s :
  calm (retries options <> []) s (Web.onMessage options w m s).
Proof.
  unfold Web.onMessage, Web.dispatchExit. destruct m.
  - change (Web.exitHandler options 0) with (Node.exitHandler options 0). calm_chain.
  - change (Web.exitHandler options 1) with (Node.exitHandler options 1). calm_chain.
Qed.

(** Every task but [RetryTimer] is calm. *)
Lemma calm_node_handle runnable options params t s :
  t <> RetryTimer ->
  calm (retries options <> []) s (Node.handle runnable options params t s).
Proof.
  intros Ht. destruct t; cbn [Node.handle]; try contradiction.
  - apply calm_postMessage.
  - eapply calm_trans; [apply calm_node_terminate | apply calm_clearTimeout].
  - eapply calm_trans; [|apply calm_node_abort]. apply calm_same; reflexivity.
  - destruct (is_alive w s); [|apply calm_refl].
    unfold Node.finish, Node.onError.
    destruct c; cbn; calm_chain.
  - destruct (is_alive w s); [|apply calm_refl]. unfold Node.onError. calm_chain.
  - apply calm_exitHandler.
Qed.

Lemma calm_web_handle runnable options params t s :
  t <> RetryTimer ->
  calm (retries options <> []) s (Web.handle runnable options params t s).
Proof.
  intros Ht. destruct t; cbn [Web.handle]; try contradiction.
  - apply calm_postMessage.
  - eapply calm_trans; [apply calm_web_terminate | apply calm_clearTimeout].
  - eapply calm_trans; [|apply calm_web_abort]. apply calm_same; reflexivity.
  - destruct (is_alive w s); [|apply calm_refl].
    destruct c as [v|e];
      [ change (calm (retries options <> []) s
                  (Web.onMessage options w (success v) (kill w s)))
      | change (calm (retries options <> []) s
                  (Web.onMessage options w (error e) (kill w s))) ];
      (eapply calm_trans; [apply calm_kill | apply calm_web_onMessage]).
  - destruct (is_alive w s); [|apply calm_refl].
    unfold Web.onError, Web.dispatchExit.
    change (Web.exitHandler options 1) with (Node.exitHandler options 1). calm_chain.
  - apply calm_refl.
Qed.

(** [tryExecution] adds one worker; the timers it schedules are the ones it
    stores in that worker. *)
Lemma tryExecution_spawns runnable options params s :
  exists stT toT,
    workers (Node.tryExecution runnable options params s)
    = workers s ++ [mkWorker true stT toT] /\
    forall x, In x (queue (Node.tryExecution runnable options params s)) ->
      In x (queue s) \/ (is_timer (task x) = false /\ task x <> RetryTimer) \/
      (task x = StartTimer (length (workers s)) /\ stT = Some (id x)) \/
      (task x = TimeoutTimer (length (workers s)) /\ toT = Some (id x)).
Proof.
  destruct s as [nw sq q ws al p rc ei lg].
  unfold Node.tryExecution, Node.createWorker, Node.newWorker, Node.postMessage,
    setTimeout, is_alive.
  cbn. break_match; rewrite ?update_snoc.
  all: do 2 eexists; (split; [reflexivity|]).
  all: intros x Hx; repeat (apply In_enqueue_iff in Hx as [->|Hx]); cbn; auto 6.
  all: right; left; split; [reflexivity|discriminate].
Qed.

Lemma timer_of_is_timer w t : timer_of w t = true -> is_timer t = true.
Proof. destruct t; cbn; auto. Qed.

Lemma filter_nil_iff {A} (f : A -> bool) l :
  filter f l = [] <-> forall x, In x l -> f x = false.
Proof.
  induction l as [|a l IH]; cbn; [intuition|].
  destruct (f a) eqn:E; split.
  - discriminate.
  - intros H. specialize (H a (or_introl eq_refl)). congruence.
  - intros H x [<-|Hx]; auto. apply IH; auto.
  - intros H. apply IH. auto.
Qed.

Lemma recorded_calm R s s' : calm R s s' -> timers_recorded s -> timers_recorded s'.
Proof.
  intros (Q & S & T & _) I x Hx.
  destruct (Q x Hx) as [H|[H _]].
  - specialize (I x H). destruct (task x); auto; rewrite ?S, ?T; exact I.
  - destruct (task x); try exact Logic.I; discriminate.
Qed.

Lemma cleared_calm R w s s' : calm R s s' -> timers_cleared w s -> timers_cleared w s'.
Proof.
  intros (Q & _ & _ & L) [C Hw]. split; [|lia].
  unfold timers_pending in *. rewrite filter_nil_iff in *.
  intros x Hx. destruct (Q x Hx) as [H|[H _]]; auto.
  destruct (timer_of w (task x)) eqn:E; auto.
  apply timer_of_is_timer in E. congruence.
Qed.

Lemma startTimerOf_lt w s i : startTimerOf w s = Some i -> w < length (workers s).
Proof.
  unfold startTimerOf. destruct (nth_error (workers s) w) eqn:E; [|discriminate].
  intros _. apply nth_error_Some. congruence.
Qed.

Lemma timeoutTimerOf_lt w s i : timeoutTimerOf w s = Some i -> w < length (workers s).
Proof.
  unfold timeoutTimerOf. destruct (nth_error (workers s) w) eqn:E; [|discriminate].
  intros _. apply nth_error_Some. congruence.
Qed.

Lemma recorded_spawn runnable options params s :
  timers_recorded s -> timers_recorded (Node.tryExecution runnable options params s).
Proof.
  intros I x Hx.
  destruct (tryExecution_spawns runnable options params s) as (stT & toT & W & Q).
  unfold startTimerOf, timeoutTimerOf. rewrite W.
  destruct (Q x Hx) as [H|[[H _]|[[H E]|[H E]]]].
  - specialize (I x H). destruct (task x); auto.
    + rewrite nth_error_app1 by (eapply startTimerOf_lt; eauto). exact I.
    + rewrite nth_error_app1 by (eapply timeoutTimerOf_lt; eauto). exact I.
  - destruct (task x); try exact Logic.I; discriminate.
  - rewrite H, nth_error_snoc. exact E.
  - rewrite H, nth_error_snoc. exact E.
Qed.

Lemma cleared_spawn runnable options params w s :
  timers_cleared w s -> timers_cleared w (Node.tryExecution runnable options params s).
Proof.
  intros [C Hw].
  destruct (tryExecution_spawns runnable options params s) as (stT & toT & W & Q).
  split; [|rewrite W, length_app; cbn; lia].
  unfold timers_pending in *. rewrite filter_nil_iff in *.
  intros x Hx. destruct (Q x Hx) as [H|[[H _]|[[H E]|[H E]]]]; auto.
  - destruct (timer_of w (task x)) eqn:E; auto.
    apply timer_of_is_timer in E. congruence.
  - rewrite H. cbn. apply Nat.eqb_neq. lia.
  - rewrite H. cbn. apply Nat.eqb_neq. lia.
Qed.

(** The two [clearTimeout] of the message listener leave no timer of the
    worker behind. *)
Lemma listener_clears w s :
  timers_recorded s -> w < length (workers s) ->
  timers_cleared w
    (clearTimeout (startTimerOf w (clearTimeout (timeoutTimerOf w s) s))
       (clearTimeout (timeoutTimerOf w s) s)).
Proof.
  intros I Hw.
  assert (C1 : calm True s (clearTimeout (timeoutTimerOf w s) s))
    by apply calm_clearTimeout.
  destruct C1 as (_ & S1 & _ & L1).
  split.
  - unfold timers_pending. rewrite filter_nil_iff. intros x Hx.
    rewrite S1 in Hx.
    assert (Hin : In x (queue s)).
    { destruct (startTimerOf w s), (timeoutTimerOf w s); cbn in Hx;
        repeat (apply filter_In in Hx as [Hx _]); exact Hx. }
    specialize (I x Hin).
    destruct (task x) as [w'|w'| | | | |]; cbn; auto;
      destruct (Nat.eqb_spec w' w) as [->|]; auto; exfalso.
    + rewrite I in Hx. destruct (timeoutTimerOf w s); cbn in Hx;
        apply filter_In in Hx as [_ Hx]; rewrite Nat.eqb_refl in Hx; discriminate.
    + rewrite I in Hx. destruct (startTimerOf w s); cbn in Hx;
        repeat (apply filter_In in Hx as [Hx Hx']);
        try (apply filter_In in Hx as [_ Hx]);
        rewrite ?Nat.eqb_refl in *; discriminate.
  - destruct (startTimerOf w (clearTimeout (timeoutTimerOf w s) s)),
      (timeoutTimerOf w s); cbn; exact Hw.
Qed.

Section Timers.

Variable runnable : IRunnable.
Variable options : option IRunnableOption.
Variable params : list Value.

Lemma node_handle_recorded t s :
  timers_recorded s -> timers_recorded (Node.handle runnable options params t s).
Proof.
  intros I.
  destruct t;
    try (eapply (recorded_calm _ s); [apply calm_node_handle; discriminate|exact I]).
  apply recorded_spawn. exact I.
Qed.

Lemma web_handle_recorded t s :
  timers_recorded s -> timers_recorded (Web.handle runnable options params t s).
Proof.
  intros I.
  destruct t;
    try (eapply (recorded_calm _ s); [apply calm_web_handle; discriminate|exact I]).
  apply (recorded_spawn runnable options params). exact I.
Qed.

Lemma node_handle_cleared w t s :
  timers_cleared w s -> timers_cleared w (Node.handle runnable options params t s).
Proof.
  intros C.
  destruct t;
    try (eapply (cleared_calm _ w s); [apply calm_node_handle; discriminate|exact C]).
  apply cleared_spawn. exact C.
Qed.

Lemma web_handle_cleared w t s :
  timers_cleared w s -> timers_cleared w (Web.handle runnable options params t s).
Proof.
  intros C.
  destruct t;
    try (eapply (cleared_calm _ w s); [apply calm_web_handle; discriminate|exact C]).
  apply (cleared_spawn runnable options params). exact C.
Qed.

Lemma recorded_initial : timers_recorded (initial options).
Proof.
  intros x Hx. destruct options as [[[[]|] ? ? ? ?]|]; cbn in Hx; try contradiction.
  destruct Hx as [<-|[]]. exact Logic.I.
Qed.

Lemma node_run_recorded n : forall s,
  timers_recorded s -> timers_recorded (Node.run runnable options params n s).
Proof.
  induction n as [|n IH]; intros s I; cbn; auto.
  unfold Node.step. destruct (queue s) as [|x q] eqn:E; auto.
  apply IH, node_handle_recorded.
  apply (recorded_calm True s); [eapply calm_pop; eauto | exact I].
Qed.

Lemma web_run_recorded n : forall s,
  timers_recorded s -> timers_recorded (Web.run runnable options params n s).
Proof.
  induction n as [|n IH]; intros s I; cbn; auto.
  unfold Web.step. destruct (queue s) as [|x q] eqn:E; auto.
  apply IH, web_handle_recorded.
  apply (recorded_calm True s); [eapply calm_pop; eauto | exact I].
Qed.

Lemma node_run_cleared w n : forall s,
  timers_cleared w s -> timers_cleared w (Node.run runnable options params n s).
Proof.
  induction n as [|n IH]; intros s C; cbn; auto.
  unfold Node.step. destruct (queue s) as [|x q] eqn:E; auto.
  apply IH, node_handle_cleared.
  apply (cleared_calm True w s); [eapply calm_pop; eauto | exact C].
Qed.

Lemma web_run_cleared w n : forall s,
  timers_cleared w s -> timers_cleared w (Web.run runnable options params n s).
Proof.
  induction n as [|n IH]; intros s C; cbn; auto.
  unfold Web.step. destruct (queue s) as [|x q] eqn:E; auto.
  apply IH, web_handle_cleared.
  apply (cleared_calm True w s); [eapply calm_pop; eauto | exact C].
Qed.

Lemma is_alive_lt w s : is_alive w s = true -> w < length (workers s).
Proof.
  unfold is_alive. destruct (nth_error (workers s) w) eqn:E; [|discriminate].
  intros _. apply nth_error_Some. congruence.
Qed.

(** The message of a worker that returned a value. *)
Lemma node_message_clears s w v :
  timers_recorded s -> is_alive w s = true ->
  timers_cleared w (Node.handle runnable options params (Settle w (Normal v)) s).
Proof.
  intros I Ha. cbn [Node.handle]. rewrite Ha.
  apply (cleared_calm True w _ _ (calm_refl _ _)).
  change (timers_cleared w
            (schedule 0 (ExitEvent w 0)
               (kill w (resolve v
                  (clearTimeout (startTimerOf w (clearTimeout (timeoutTimerOf w s) s))
                     (clearTimeout (timeoutTimerOf w s) s)))))).
  eapply (cleared_calm True);
    [|apply listener_clears; [exact I|apply is_alive_lt; exact Ha]].
  calm_chain.
Qed.

(** The message of a worker whose computation completed, either way. *)
Lemma web_message_clears s w c :
  timers_recorded s -> is_alive w s = true ->
  timers_cleared w (Web.handle runnable options params (Settle w c) s).
Proof.
  intros I Ha. cbn [Web.handle]. rewrite Ha.
  assert (K : timers_cleared w
            (clearTimeout (startTimerOf w (clearTimeout (timeoutTimerOf w (kill w s)) (kill w s)))
               (clearTimeout (timeoutTimerOf w (kill w s)) (kill w s)))).
  { apply listener_clears.
    - apply (recorded_calm True s); [apply calm_kill | exact I].
    - destruct (calm_kill True w s) as (_ & _ & _ & ->). apply is_alive_lt. exact Ha. }
  destruct c as [v|e].
  - change (timers_cleared w
              (Node.exitHandler options 0
                 (resolve v
                    (clearTimeout
                       (startTimerOf w (clearTimeout (timeoutTimerOf w (kill w s)) (kill w s)))
                       (clearTimeout (timeoutTimerOf w (kill w s)) (kill w s)))))).
    eapply (cleared_calm (retries options <> [])); [|exact K]. calm_chain.
  - change (timers_cleared w
              (Node.exitHandler options 1
                 (set_errorInstance (Some e)
                    (clearTimeout
                       (startTimerOf w (clearTimeout (timeoutTimerOf w (kill w s)) (kill w s)))
                       (clearTimeout (timeoutTimerOf w (kill w s)) (kill w s)))))).
    eapply (cleared_calm (retries options <> [])); [|exact K]. calm_chain.
Qed.

End Timers.

(** C7 (amended). In both variants, once the message of a worker is
    delivered (in the worker_threads variant: the returned value; in the Web
    Worker variant: the tagged outcome, success or error), neither the start
    timer nor the timeout timer of that worker is pending, at that step and
    for the rest of the invocation: a timeout that has not fired can no
    longer terminate a worker that has produced a result. *)
Theorem message_clears_timers
    (runnable : IRunnable) (options : option IRunnableOption) (params : list Value)
    (fuel more w : nat) (c : Completion) (x : Entry) (q : list Entry) :
  (let s := Node.run runnable options params fuel
              (Node.createPool runnable options params) in
   queue s = x :: q -> task x = Settle w c -> (exists v, c = Normal v) ->
   is_alive w s = true ->
   timers_pending w (Node.run runnable options params (S more) s) = []) /\
  (let s := Web.run runnable options params fuel
              (Web.createPool runnable options params) in
   queue s = x :: q -> task x = Settle w c ->
   is_alive w s = true ->
   timers_pending w (Web.run runnable options params (S more) s) = []).
Proof.
  split; cbv zeta.
  - intros Hq Hx [v ->] Ha.
    set (s := Node.run runnable options params fuel
                (Node.createPool runnable options params)) in *.
    assert (I : timers_recorded s).
    { apply node_run_recorded, recorded_spawn, recorded_initial. }
    rewrite node_run_S. unfold Node.step. rewrite Hq, Hx.
    apply node_run_cleared, node_message_clears.
    + apply (recorded_calm True s); [eapply calm_pop; eauto | exact I].
    + destruct s; exact Ha.
  - intros Hq Hx Ha.
    set (s := Web.run runnable options params fuel
                (Web.createPool runnable options params)) in *.
    assert (I : timers_recorded s).
    { apply web_run_recorded.
      apply (recorded_spawn runnable options params), recorded_initial. }
    rewrite web_run_S. unfold Web.step. rewrite Hq, Hx.
    apply web_run_cleared, web_message_clears.
    + apply (recorded_calm True s); [eapply calm_pop; eauto | exact I].
    + destruct s; exact Ha.
Qed.

Lemma message_clears_timers_witness :
  let options := Some (mkOption None (Some 2%Z) (Some 10%Z) None None) in
  let x := mkEntry 5 3 (Settle 0 (Normal 5%Z)) in
  let q := [mkEntry 10 2 (TimeoutTimer 0)] in
  (let s := Node.run add options [2; 3]%Z 1 (Node.createPool add options [2; 3]%Z) in
   queue s = x :: q /\ is_alive 0 s = true /\
   timers_pending 0 (Node.run add options [2; 3]%Z 4 s) = []) /\
  (let s := Web.run add options [2; 3]%Z 1 (Web.createPool add options [2; 3]%Z) in
   queue s = x :: q /\ is_alive 0 s = true /\
   timers_pending 0 (Web.run add options [2; 3]%Z 4 s) = []).
Proof.
  intros options x q.
  destruct (message_clears_timers add options [2; 3]%Z 1 3 0 (Normal 5%Z) x q)
    as [HN HW].
  split.
  - split; [reflexivity|]. split; [reflexivity|].
    apply HN; [reflexivity | reflexivity | exists 5%Z; reflexivity | reflexivity].
  - split; [reflexivity|]. split; [reflexivity|].
    apply HW; reflexivity.
Defined.

(** ** C8: a signal that is already aborted *)

Section NoRetry.

Variable runnable : IRunnable.
Variable options : option IRunnableOption.
Variable params : list Value.

Hypothesis no_retries : retries options = [].





End NoRetry.




(** In the Web Worker variant [terminate] reports nothing, so a worker
    stopped by the timeout leaves the promise pending and no retry
    scheduled. *)
Example web_timeout_leaves_pending :
  let options := Some (mkOption None None (Some 7%Z) (Some [10%Z]) None) in
  let s := Web.run hang options [] 5 (Web.createPool hang options []) in
  now s = 7 /\ is_alive 0 s = false /\ promise s = Pending /\ queue s = [] /\
  length (workers s) = 1.
Proof. repeat split. Qed.

(** * Further properties of whole invocations *)

(** ** A computation that fails a few times and then returns *)

Section NodeEventually.

Variable runnable : IRunnable.
Variable options : option IRunnableOption.
Variable params : list Value.

Local Abbreviation run := (Node.run runnable options params).
Local Abbreviation step := (Node.step runnable options params).
Local Abbreviation tryExecution := (Node.tryExecution runnable options params).
Local Abbreviation exitHandler := (Node.exitHandler options).




End NodeEventually.

Section WebEventually.

Variable runnable : IRunnable.
Variable options : option IRunnableOption.
Variable params : list Value.

Local Abbreviation run := (Web.run runnable options params).
Local Abbreviation step := (Web.step runnable options params).
Local Abbreviation tryExecution := (Web.tryExecution runnable options params).
Local Abbreviation exitHandler := (Web.exitHandler options).




End WebEventually.



(** ** A computation that never completes, under a timeout *)





Section NodeHang.

Variable runnable : IRunnable.
Variable options : option IRunnableOption.
Variable params : list Value.

Local Abbreviation run := (Node.run runnable options params).
Local Abbreviation step := (Node.step runnable options params).
Local Abbreviation tryExecution := (Node.tryExecution runnable options params).
Local Abbreviation exitHandler := (Node.exitHandler options).



End NodeHang.



(** ** A stopped worker of the Web Worker variant *)

Ltac reach_state n rw :=
  exists n;
  match goal with
  | |- context [Node.run ?a ?b ?c ?m ?i] => pattern (Node.run a b c m i)
  | |- context [Web.run ?a ?b ?c ?m ?i] => pattern (Web.run a b c m i)
  end;
  apply name_state; exec rw; intros ? <-;
  eexists; (split; [reflexivity|]);
  unfold all_stopped; read_state; cbn [is_retry]; repeat split; auto.

Section WebStopped.

Variable runnable : IRunnable.
Variable options : option IRunnableOption.
Variable params : list Value.

Lemma stopped_is_alive s w :
  forallb (fun wk => negb (alive wk)) (workers s) = true -> is_alive w s = false.
Proof.
  unfold is_alive. intros H. destruct (nth_error (workers s) w) as [wk|] eqn:E; auto.
  apply nth_error_In in E. rewrite forallb_forall in H. apply H in E.
  destruct (alive wk); auto; discriminate.
Qed.

Lemma forallb_filter {A} (f g : A -> bool) l :
  forallb f l = true -> forallb f (filter g l) = true.
Proof.
  induction l as [|x l IH]; simpl; auto. intros H. apply andb_prop in H as [Hx Hl].
  destruct (g x); simpl; auto. rewrite Hx. auto.
Qed.

Lemma web_abort_stopped l : forall s,
  forallb (fun wk => negb (alive wk)) (workers s) = true ->
  fold_left (fun s w => Web.terminate w s) l s = s.
Proof.
  induction l as [|w l IH]; intros s H; simpl; auto.
  unfold Web.terminate at 2. rewrite stopped_is_alive by auto. auto.
Qed.

(** Once every isolate of the Web Worker variant has stopped, a task that
    is not a retry changes neither the promise nor the workers. *)
Lemma web_handle_stopped t s :
  all_stopped s -> is_retry t = false ->
  let s' := Web.handle runnable options params t s in
  all_stopped s' /\ promise s' = promise s /\ workers s' = workers s /\
  retryCount s' = retryCount s.
Proof.
  intros [Hw Hq] Ht.
  destruct t as [w|w| | |w c|w e|w code]; try discriminate; cbn zeta;
    unfold Web.handle, Web.postMessage, Web.terminate;
    rewrite ?(stopped_is_alive s w Hw); try (repeat split; auto; fail).
  - destruct (startTimerOf w s); cbn; repeat split; auto.
    apply forallb_filter; auto.
  - rewrite web_abort_stopped by auto. repeat split; auto.
Qed.

Lemma web_run_stopped n : forall s,
  all_stopped s ->
  let s' := Web.run runnable options params n s in
  promise s' = promise s /\ workers s' = workers s /\ retryCount s' = retryCount s.
Proof.
  induction n as [|n IH]; intros s H; cbn zeta; [auto|].
  rewrite web_run_S. unfold Web.step.
  destruct (queue s) as [|x q] eqn:Eq; [auto|].
  destruct H as [Hw Hq]. rewrite Eq in Hq. cbn in Hq. apply andb_prop in Hq as [Hx Hq].
  destruct (web_handle_stopped (task x) (set_queue q (set_now (due x) s)))
    as (H1 & H2 & H3 & H4).
  { split; auto. }
  { destruct (is_retry (task x)); auto; discriminate. }
  destruct (IH _ H1) as (I1 & I2 & I3).
  cbn zeta in *. rewrite I1, I2, I3. auto.
Qed.

(** The timeout of the first worker goes off before the worker reports. *)
Lemma web_timeout_expires T :
  timeoutDelay (orDefault options) = Some T ->
  abortTime (orDefault options) = None ->
  after_ T (reportTime (runnable 0 params) (startDelay (orDefault options))) ->
  exists fuel s1,
    Web.run runnable options params fuel (Web.createPool runnable options params) = s1 /\
    all_stopped s1 /\ now s1 = T /\ length (workers s1) = 1 /\
    promise s1 = Pending /\ retryCount s1 = 0.
Proof.
  intros Hto Hab Hr. unfold Web.createPool. rewrite (initial_quiet options Hab). clear Hab.
  destruct options as [[[sg|] [st|] [to|] rw lgr]|];
  try (destruct (truthy st) eqn:Est);
  try (destruct (truthy to) eqn:Eto);
  cbn in Hto, Hr; rewrite ?Eto in Hto; try discriminate;
  injection Hto as <-;
  try (apply truthy_false in Est; subst st; change (Z.to_nat 0) with 0 in * ); cbn [Nat.add] in *;
  destruct (runnable 0 params) as [d c| |d e] eqn:Hb; cbn in Hr;
  try (destruct (Nat.ltb_spec (Z.to_nat to) (Z.to_nat st))).
  all: first [ solve [reach_state 1 ltac:(rewrite Hb)]
             | solve [reach_state 2 ltac:(rewrite Hb)] ].
Qed.

(** The signal fires while the first worker is running. *)
Lemma web_abort_terminates ta :
  signal (orDefault options) = Some (AbortsAt ta) ->
  before ta (timeoutDelay (orDefault options)) ->
  after_ ta (reportTime (runnable 0 params) (startDelay (orDefault options))) ->
  exists fuel s1,
    Web.run runnable options params fuel (Web.createPool runnable options params) = s1 /\
    all_stopped s1 /\ now s1 = ta /\ length (workers s1) = 1 /\
    promise s1 = Pending /\ retryCount s1 = 0.
Proof.
  intros Hsg Hto Hr. unfold Web.createPool.
  destruct options as [[sg [st|] [to|] rw lgr]|]; cbn in Hsg; try discriminate; subst sg;
  try (destruct (truthy st) eqn:Est);
  try (destruct (truthy to) eqn:Eto);
  cbn in Hto, Hr; rewrite ?Eto in Hto; unfold before in Hto;
  try (apply truthy_false in Est; subst st; change (Z.to_nat 0) with 0 in * );
  cbn [Nat.add] in *;
  destruct (runnable 0 params) as [d c| |d e] eqn:Hb; cbn in Hr;
  cbv beta iota delta [initial signal];
  try (destruct (lt_eq_lt_dec (Z.to_nat st) ta) as [[?|?]|?]).
  all: first [ solve [reach_state 1 ltac:(rewrite Hb)]
             | solve [reach_state 2 ltac:(rewrite Hb)] ].
Qed.

End WebStopped.

(** X3. Web Worker variant: when the timeout of the first worker goes off
    before the worker reports, the worker is terminated and nothing else
    ever happens: the promise stays pending, no retry is made and no second
    worker is created, whatever [retriesWithIn] holds. *)
Theorem web_timeout_stops_for_good
    (runnable : IRunnable) (options : option IRunnableOption) (params : list Value)
    (T : nat) :
  timeoutDelay (orDefault options) = Some T ->
  abortTime (orDefault options) = None ->
  after_ T (reportTime (runnable 0 params) (startDelay (orDefault options))) ->
  exists fuel, forall more,
    let s := Web.run runnable options params (fuel + more)
               (Web.createPool runnable options params) in
    promise s = Pending /\ length (workers s) = 1 /\ is_alive 0 s = false /\
    retryCount s = 0.
Proof.
  intros Hto Hab Hr.
  destruct (web_timeout_expires runnable options params T Hto Hab Hr)
    as (fuel & s1 & E & Hs & _ & Hl & Hp & Hc).
  exists fuel. intros more. cbn zeta. rewrite web_run_add, E.
  destruct (web_run_stopped runnable options params more s1 Hs) as (A & B & C).
  cbn zeta in A, B, C. unfold is_alive. rewrite A, B, C.
  repeat split; auto. apply (stopped_is_alive s1 0), Hs.
Qed.

Lemma web_timeout_stops_for_good_witness :
  let options := Some (mkOption None None (Some 2%Z) (Some [10; 20]%Z) None) in
  exists fuel, forall more,
    let s := Web.run add options [1; 2]%Z (fuel + more)
               (Web.createPool add options [1; 2]%Z) in
    promise s = Pending /\ length (workers s) = 1 /\ is_alive 0 s = false /\
    retryCount s = 0.
Proof.
  apply (web_timeout_stops_for_good add
           (Some (mkOption None None (Some 2%Z) (Some [10; 20]%Z) None)) [1; 2]%Z 2);
    [reflexivity | reflexivity | simpl; lia].
Defined.

(** X4. Web Worker variant: when the signal fires while the first worker is
    running, before its timeout and before it reports, the worker is
    terminated and nothing else ever happens: the promise stays pending, no
    retry is made and no second worker is created. *)
Theorem web_abort_stops_for_good
    (runnable : IRunnable) (options : option IRunnableOption) (params : list Value)
    (ta : nat) :
  signal (orDefault options) = Some (AbortsAt ta) ->
  before ta (timeoutDelay (orDefault options)) ->
  after_ ta (reportTime (runnable 0 params) (startDelay (orDefault options))) ->
  exists fuel, forall more,
    let s := Web.run runnable options params (fuel + more)
               (Web.createPool runnable options params) in
    promise s = Pending /\ length (workers s) = 1 /\ is_alive 0 s = false /\
    retryCount s = 0.
Proof.
  intros Hsg Hto Hr.
  destruct (web_abort_terminates runnable options params ta Hsg Hto Hr)
    as (fuel & s1 & E & Hs & _ & Hl & Hp & Hc).
  exists fuel. intros more. cbn zeta. rewrite web_run_add, E.
  destruct (web_run_stopped runnable options params more s1 Hs) as (A & B & C).
  cbn zeta in A, B, C. unfold is_alive. rewrite A, B, C.
  repeat split; auto. apply (stopped_is_alive s1 0), Hs.
Qed.

Lemma web_abort_stops_for_good_witness :
  let options := Some (mkOption (Some (AbortsAt 2)) None (Some 7%Z) (Some [10%Z]) None) in
  exists fuel, forall more,
    let s := Web.run add options [1; 2]%Z (fuel + more)
               (Web.createPool add options [1; 2]%Z) in
    promise s = Pending /\ length (workers s) = 1 /\ is_alive 0 s = false /\
    retryCount s = 0.
Proof.
  apply (web_abort_stops_for_good add
           (Some (mkOption (Some (AbortsAt 2)) None (Some 7%Z) (Some [10%Z]) None))
           [1; 2]%Z 2);
    [reflexivity | simpl; lia | simpl; lia].
Defined.

(** ** Retries, workers and the log *)

Lemma count_enqueue (f : Entry -> bool) x q :
  length (filter f (enqueue x q)) = (if f x then 1 else 0) + length (filter f q).
Proof.
  destruct (enqueue_split x q) as (q1 & q2 & -> & ->).
  rewrite !filter_app, !length_app. cbn [filter].
  destruct (f x); cbn [length]; lia.
Qed.

Lemma filter_length_le {A} (f g : A -> bool) l :
  length (filter f (filter g l)) <= length (filter f l).
Proof.
  induction l as [|x l IH]; cbn [filter]; auto.
  destruct (g x), (f x) eqn:E; cbn [filter length]; rewrite ?E; cbn [length]; lia.
Qed.

Lemma still_refl s : still s s.
Proof. unfold still. auto. Qed.

Lemma still_trans s1 s2 s3 : still s1 s2 -> still s2 s3 -> still s1 s3.
Proof.
  intros (W1 & R1 & L1 & P1) (W2 & R2 & L2 & P2). unfold still.
  repeat split; try congruence. lia.
Qed.

Lemma still_same s s' :
  queue s' = queue s -> workers s' = workers s -> retryCount s' = retryCount s ->
  logged s' = logged s -> still s s'.
Proof.
  intros Hq Hw Hr Hl. unfold still, retries_pending. rewrite Hq, Hw. auto.
Qed.

Lemma still_schedule d t s : is_retry t = false -> still s (schedule d t s).
Proof.
  intros Ht. unfold still, retries_pending. cbn.
  rewrite count_enqueue. cbn. rewrite Ht. auto.
Qed.

Lemma still_clearTimeout i s : still s (clearTimeout i s).
Proof.
  destruct i as [i|]; [|apply still_refl].
  unfold still, retries_pending. cbn. repeat split; auto. apply filter_length_le.
Qed.

Lemma still_kill w s : still s (kill w s).
Proof. unfold still, retries_pending. cbn. rewrite update_length. auto. Qed.

Lemma still_resolve v s : still s (resolve v s).
Proof. unfold resolve. destruct (promise s); apply still_same; reflexivity. Qed.

Lemma still_reject e s : still s (reject e s).
Proof. unfold reject. destruct (promise s); apply still_same; reflexivity. Qed.

Lemma paced_still options s s' : still s s' -> paced options s s'.
Proof. left. auto. Qed.

Lemma still_paced options s1 s2 s3 :
  still s1 s2 -> paced options s2 s3 -> paced options s1 s3.
Proof.
  intros H1 [H2|(W2 & B2 & R2 & L2 & P2)].
  - left. eapply still_trans; eauto.
  - destruct H1 as (W1 & R1 & L1 & P1). right.
    rewrite R1, L1 in *. repeat split; try congruence; lia.
Qed.

Lemma node_loggerOf options : Node.logger' options = loggerOf options.
Proof. destruct options; reflexivity. Qed.

Lemma paced_exitHandler options code s :
  paced options s (Node.exitHandler options code s).
Proof.
  unfold Node.exitHandler. rewrite node_retries_eq, node_loggerOf.
  destruct (code =? 0)%Z; [left; apply still_refl|].
  destruct (Nat.ltb_spec (retryCount s) (length (retries options)));
    [|left; apply still_reject].
  right. unfold setTimeout, retries_pending. cbn.
  rewrite count_enqueue. cbn. auto.
Qed.

Ltac still_one :=
  lazymatch goal with
  | |- still ?a _ =>
      first [ apply still_schedule; reflexivity
            | apply still_clearTimeout
            | apply still_kill
            | apply still_resolve
            | apply still_reject
            | (tryif is_evar a then fail else (apply still_same; reflexivity)) ]
  end.

Ltac still_chain :=
  repeat first [ apply still_refl
               | still_one
               | (eapply still_trans; [| still_one ]) ].

(** Stillness up to a last call of [exitHandler]. *)
Ltac paced_chain :=
  first [ apply paced_exitHandler
        | (eapply still_paced; [| apply paced_exitHandler]); still_chain
        | apply paced_still; still_chain ].

Lemma still_node_terminate w s : still s (Node.terminate w s).
Proof. unfold Node.terminate. destruct (is_alive w s); still_chain. Qed.

Lemma still_web_terminate w s : still s (Web.terminate w s).
Proof. unfold Web.terminate. destruct (is_alive w s); still_chain. Qed.

Lemma still_node_abort l : forall s,
  still s (fold_left (fun s w => Node.terminate w s) l s).
Proof.
  induction l as [|w l IH]; intros s; cbn; [apply still_refl|].
  eapply still_trans; [apply still_node_terminate | apply IH].
Qed.

Lemma still_web_abort l : forall s,
  still s (fold_left (fun s w => Web.terminate w s) l s).
Proof.
  induction l as [|w l IH]; intros s; cbn; [apply still_refl|].
  eapply still_trans; [apply still_web_terminate | apply IH].
Qed.

Lemma still_postMessage runnable params w s :
  still s (Node.postMessage runnable params w s).
Proof.
  unfold Node.postMessage. destruct (is_alive w s); [|apply still_refl].
  destruct (runnable w params); still_chain.
Qed.

Lemma paced_web_onMessage options w m s :
  paced options s (Web.onMessage options w m s).
Proof.
  unfold Web.onMessage, Web.dispatchExit. destruct m.
  - change (Web.exitHandler options 0) with (Node.exitHandler options 0). paced_chain.
  - change (Web.exitHandler options 1) with (Node.exitHandler options 1). paced_chain.
Qed.

(** Every task but [RetryTimer] creates no worker and makes at most one
    retry. *)
Lemma paced_node_handle runnable options params t s :
  is_retry t = false ->
  paced options s (Node.handle runnable options params t s).
Proof.
  intros Ht. destruct t; cbn [Node.handle]; try discriminate.
  - left. apply still_postMessage.
  - left. eapply still_trans; [apply still_node_terminate | apply still_clearTimeout].
  - left. eapply still_trans; [|apply still_node_abort]. apply still_same; reflexivity.
  - left. destruct (is_alive w s); [|apply still_refl].
    unfold Node.finish, Node.onError.
    destruct c; cbn; still_chain.
  - left. destruct (is_alive w s); [|apply still_refl]. unfold Node.onError. still_chain.
  - apply paced_exitHandler.
Qed.

Lemma paced_web_handle runnable options params t s :
  is_retry t = false ->
  paced options s (Web.handle runnable options params t s).
Proof.
  intros Ht. destruct t; cbn [Web.handle]; try discriminate.
  - left. apply still_postMessage.
  - left. eapply still_trans; [apply still_web_terminate | apply still_clearTimeout].
  - left. eapply still_trans; [|apply still_web_abort]. apply still_same; reflexivity.
  - destruct (is_alive w s); [|left; apply still_refl].
    destruct c as [v|e];
      [ change (paced options s (Web.onMessage options w (success v) (kill w s)))
      | change (paced options s (Web.onMessage options w (error e) (kill w s))) ];
      (eapply still_paced; [apply still_kill | apply paced_web_onMessage]).
  - destruct (is_alive w s); [|left; apply still_refl].
    unfold Web.onError, Web.dispatchExit.
    change (Web.exitHandler options 1) with (Node.exitHandler options 1). paced_chain.
  - left. apply still_refl.
Qed.

(** [tryExecution] creates one worker and schedules no retry. *)
Lemma tryExecution_counts runnable options params s :
  let s' := Node.tryExecution runnable options params s in
  length (workers s') = S (length (workers s)) /\
  retryCount s' = retryCount s /\ logged s' = logged s /\
  retries_pending s' = retries_pending s.
Proof.
  destruct s as [nw sq q ws al p rc ei lg].
  unfold Node.tryExecution, Node.createWorker, Node.newWorker, Node.postMessage,
    setTimeout, is_alive, retries_pending.
  cbn. break_match; rewrite ?update_length, ?length_app; cbn [length];
    rewrite ?count_enqueue; cbn;
    repeat split; lia.
Qed.

Lemma firstn_snoc {A} (d : A) : forall l n,
  n < length l -> firstn (S n) l = firstn n l ++ [nth n l d].
Proof.
  induction l as [|x l IH]; intros n H; cbn in H; [lia|].
  destruct n as [|n]; [reflexivity|].
  cbn [firstn nth app]. cbn [firstn] in IH. rewrite IH by lia. reflexivity.
Qed.

Lemma expectedLog_S options n :
  n < length (retries options) ->
  expectedLog options (S n) =
  loggerOf options (retryNotice (nth n (retries options) 0%Z)) (expectedLog options n).
Proof.
  intros H. unfold expectedLog. rewrite (firstn_snoc 0%Z) by auto.
  rewrite fold_left_app. reflexivity.
Qed.

Lemma accounted_paced options x q s s' :
  queue s = x :: q -> is_retry (task x) = false ->
  paced options (set_queue q (set_now (due x) s)) s' ->
  accounted options s -> accounted options s'.
Proof.
  intros Hq Hx Hp (HR & HL & HW).
  unfold retries_pending in HW. rewrite Hq in HW. cbn [filter] in HW. rewrite Hx in HW.
  destruct Hp as [(W & R & L & P)|(W & B & R & L & P)];
    unfold retries_pending in P; cbn in *; unfold accounted, retries_pending.
  - rewrite W, R, L. repeat split; auto; lia.
  - rewrite W, R, L, HL, expectedLog_S by auto. repeat split; auto; lia.
Qed.

Lemma accounted_spawn runnable options params x q s :
  queue s = x :: q -> is_retry (task x) = true ->
  accounted options s ->
  accounted options
    (Node.tryExecution runnable options params (set_queue q (set_now (due x) s))).
Proof.
  intros Hq Hx (HR & HL & HW).
  unfold retries_pending in HW. rewrite Hq in HW. cbn [filter] in HW. rewrite Hx in HW.
  cbn [length] in HW.
  destruct (tryExecution_counts runnable options params (set_queue q (set_now (due x) s)))
    as (W & R & L & P).
  unfold retries_pending in P. cbn in W, R, L, P. unfold accounted, retries_pending.
  rewrite W, R, L, P. repeat split; auto; lia.
Qed.

Lemma accounted_createPool runnable options params :
  accounted options (Node.createPool runnable options params).
Proof.
  unfold Node.createPool.
  destruct (tryExecution_counts runnable options params (initial options))
    as (W & R & L & P).
  unfold accounted. cbn zeta in *. rewrite W, R, L, P.
  assert (retries_pending (initial options) = 0) as ->.
  { destruct options as [[[[]|] ? ? ? ?]|]; reflexivity. }
  cbn. repeat split; lia.
Qed.

Lemma is_retry_true t : is_retry t = true -> t = RetryTimer.
Proof. destruct t; try discriminate; auto. Qed.

Lemma node_run_accounted runnable options params n : forall s,
  accounted options s -> accounted options (Node.run runnable options params n s).
Proof.
  induction n as [|n IH]; intros s H; cbn [Node.run]; auto.
  unfold Node.step. destruct (queue s) as [|x q] eqn:Eq; auto.
  apply IH. destruct (is_retry (task x)) eqn:Ex.
  - rewrite (is_retry_true _ Ex). cbn [Node.handle].
    apply (accounted_spawn runnable options params x q s); auto.
  - eapply accounted_paced; eauto. apply paced_node_handle; auto.
Qed.

Lemma web_run_accounted runnable options params n : forall s,
  accounted options s -> accounted options (Web.run runnable options params n s).
Proof.
  induction n as [|n IH]; intros s H; cbn [Web.run]; auto.
  unfold Web.step. destruct (queue s) as [|x q] eqn:Eq; auto.
  apply IH. destruct (is_retry (task x)) eqn:Ex.
  - rewrite (is_retry_true _ Ex). cbn [Web.handle].
    apply (accounted_spawn runnable options params x q s); auto.
  - eapply accounted_paced; eauto. apply paced_web_handle; auto.
Qed.

(** X5. In both variants, at every moment of an invocation, the logger has
    been handed exactly one notice per retry made so far, in order: the
    notice of retry number [i] is "Retry with in Nms" with [N] the entry [i]
    of [retriesWithIn]. Nothing else is logged. *)
Theorem retries_are_logged_in_order
    (runnable : IRunnable) (options : option IRunnableOption) (params : list Value)
    (fuel : nat) :
  (let s := Node.run runnable options params fuel
              (Node.createPool runnable options params) in
   logged s = expectedLog options (retryCount s)) /\
  (let s := Web.run runnable options params fuel
              (Web.createPool runnable options params) in
   logged s = expectedLog options (retryCount s)).
Proof.
  split; cbn zeta.
  - apply (node_run_accounted runnable options params fuel), accounted_createPool.
  - apply (web_run_accounted runnable options params fuel).
    exact (accounted_createPool runnable options params).
Qed.

(** X6. In both variants, whatever the computation does and whatever the
    options are, the retry counter never exceeds the length of
    [retriesWithIn], and the number of workers created so far is at most one
    more than the number of retries made: an invocation never creates more
    than [retriesWithIn.length + 1] workers. *)
Theorem attempts_are_bounded
    (runnable : IRunnable) (options : option IRunnableOption) (params : list Value)
    (fuel : nat) :
  (let s := Node.run runnable options params fuel
              (Node.createPool runnable options params) in
   retryCount s <= length (retries options) /\
   length (workers s) <= S (retryCount s)) /\
  (let s := Web.run runnable options params fuel
              (Web.createPool runnable options params) in
   retryCount s <= length (retries options) /\
   length (workers s) <= S (retryCount s)).
Proof.
  split; cbn zeta.
  - destruct (node_run_accounted runnable options params fuel _
                (accounted_createPool runnable options params)) as (A & _ & B).
    split; auto. lia.
  - change (Web.createPool runnable options params)
      with (Node.createPool runnable options params).
    destruct (web_run_accounted runnable options params fuel _
                (accounted_createPool runnable options params)) as (A & _ & B).
    split; auto. lia.
Qed.

(** ** One worker at a time (worker_threads variant) *)

Lemma running_kill w s :
  is_alive w s = true -> S (running (kill w s)) = running s.
Proof.
  unfold is_alive, running, kill. cbn. generalize (workers s). clear s.
  induction w as [|w IH]; intros [|[a st tt] ws]; cbn; try discriminate.
  - intros ->. reflexivity.
  - intros H. destruct a; cbn; rewrite <- (IH ws H); reflexivity.
Qed.

Lemma is_alive_clearTimeout w i s : is_alive w (clearTimeout i s) = is_alive w s.
Proof. destruct i; reflexivity. Qed.

Lemma is_alive_resolve w v s : is_alive w (resolve v s) = is_alive w s.
Proof. unfold resolve. destruct (promise s); reflexivity. Qed.

Lemma is_alive_onMessage w v s : is_alive w (Node.onMessage w v s) = is_alive w s.
Proof.
  unfold Node.onMessage. rewrite is_alive_resolve, !is_alive_clearTimeout. reflexivity.
Qed.

Lemma node_finish_returns w v s :
  Node.finish w (runScript (Node.script (Normal v))) s =
  schedule 0 (ExitEvent w 0) (kill w (Node.onMessage w v s)).
Proof. reflexivity. Qed.

Lemma node_finish_throws w e s :
  Node.finish w (runScript (Node.script (Abrupt e))) s =
  schedule 0 (ExitEvent w 1) (kill w (Node.onError e s)).
Proof. reflexivity. Qed.

Section Load.

(** [c] tells which "exit" events are counted. *)
Variable c : Task -> bool.
Hypothesis c_exit : forall t, c t = true -> is_exit t = true.

Lemma c_other t : is_exit t = false -> c t = false.
Proof. intros H. destruct (c t) eqn:E; auto. apply c_exit in E. congruence. Qed.

Lemma load_same s s' :
  queue s' = queue s -> workers s' = workers s -> load c s' = load c s.
Proof.
  intros Hq Hw. unfold load, running, retries_pending. rewrite Hq, Hw. reflexivity.
Qed.

Lemma load_schedule d t s :
  load c (schedule d t s) =
  load c s + (if c t then 1 else 0) + (if is_retry t then 1 else 0).
Proof.
  unfold load, running, retries_pending. cbn. rewrite !count_enqueue. cbn. lia.
Qed.

Lemma load_clearTimeout i s : load c (clearTimeout i s) <= load c s.
Proof.
  destruct i as [i|]; [|auto].
  unfold load, running, retries_pending. cbn.
  pose proof (filter_length_le (fun e => c (task e))
                (fun e => negb (id e =? i)) (queue s)).
  pose proof (filter_length_le (fun e => is_retry (task e))
                (fun e => negb (id e =? i)) (queue s)).
  lia.
Qed.

Lemma load_resolve v s : load c (resolve v s) = load c s.
Proof. unfold resolve. destruct (promise s); apply load_same; reflexivity. Qed.

Lemma load_reject e s : load c (reject e s) = load c s.
Proof. unfold reject. destruct (promise s); apply load_same; reflexivity. Qed.

Lemma load_onMessage w v s : load c (Node.onMessage w v s) <= load c s.
Proof.
  unfold Node.onMessage. rewrite load_resolve.
  eapply Nat.le_trans; [apply load_clearTimeout|]. apply load_clearTimeout.
Qed.

(** A running worker that stops is replaced by its "exit" event. *)
Lemma load_stop w code s :
  is_alive w s = true ->
  load c (schedule 0 (ExitEvent w code) (kill w s))
  + (if c (ExitEvent w code) then 0 else 1) = load c s.
Proof.
  intros H. rewrite load_schedule. cbn [is_retry].
  unfold load. rewrite <- (running_kill w s H).
  unfold retries_pending. cbn. destruct (c (ExitEvent w code)); lia.
Qed.

Lemma load_stop_le w code s :
  is_alive w s = true ->
  load c (schedule 0 (ExitEvent w code) (kill w s)) <= load c s.
Proof. intros H. pose proof (load_stop w code s H). lia. Qed.

Lemma load_exitHandler options code s :
  load c (Node.exitHandler options code s) <= S (load c s).
Proof.
  unfold Node.exitHandler.
  destruct (code =? 0)%Z; [auto|].
  destruct (retryCount s <? length (Node.retriesWithIn' options)).
  - unfold setTimeout. cbn [snd]. rewrite load_schedule.
    rewrite (c_other RetryTimer eq_refl). cbn [is_retry].
    erewrite (load_same s); [lia | reflexivity | reflexivity].
  - rewrite load_reject. auto.
Qed.

Variable runnable : IRunnable.
Variable options : option IRunnableOption.
Variable params : list Value.

Lemma load_terminate w s : load c (Node.terminate w s) <= load c s.
Proof.
  unfold Node.terminate. destruct (is_alive w s) eqn:E; auto. apply load_stop_le; auto.
Qed.

Lemma load_abort l : forall s,
  load c (fold_left (fun s w => Node.terminate w s) l s) <= load c s.
Proof.
  induction l as [|w l IH]; intros s; cbn; auto.
  eapply Nat.le_trans; [apply IH|]. apply load_terminate.
Qed.

Lemma load_postMessage w s : load c (Node.postMessage runnable params w s) = load c s.
Proof.
  unfold Node.postMessage. destruct (is_alive w s); auto.
  destruct (runnable w params); auto. rewrite load_schedule.
  rewrite (c_other (Settle w c0) eq_refl). cbn. lia.
Qed.

(** A task that is neither a retry nor an "exit" starts nothing. *)
Lemma load_handle t s :
  is_retry t = false -> is_exit t = false ->
  load c (Node.handle runnable options params t s) <= load c s.
Proof.
  intros Hr He. destruct t; try discriminate; cbn [Node.handle].
  - rewrite load_postMessage. auto.
  - eapply Nat.le_trans; [apply load_clearTimeout|]. apply load_terminate.
  - eapply Nat.le_trans; [apply load_abort|]. rewrite (load_same s); auto.
  - destruct (is_alive w s) eqn:E; auto.
    destruct c0 as [v|e].
    + rewrite node_finish_returns.
      eapply Nat.le_trans; [apply load_stop_le; rewrite is_alive_onMessage; auto|].
      apply load_onMessage.
    + rewrite node_finish_throws.
      eapply Nat.le_trans; [apply load_stop_le; auto|]. rewrite (load_same s); auto.
  - destruct (is_alive w s) eqn:E; auto. unfold Node.onError.
    eapply Nat.le_trans; [apply load_stop_le; auto|]. rewrite (load_same s); auto.
Qed.

(** [tryExecution] starts one worker. *)
Lemma load_tryExecution s :
  load c (Node.tryExecution runnable options params s) = S (load c s).
Proof.
  destruct s as [nw sq q ws al p rc ei lg].
  unfold Node.tryExecution, Node.createWorker, Node.newWorker, Node.postMessage,
    setTimeout, is_alive, load, running, retries_pending.
  cbn. break_match; rewrite ?update_snoc, ?filter_app, ?length_app; cbn [filter alive length];
    rewrite ?count_enqueue; cbn [task is_retry];
    rewrite ?(c_other (StartTimer (length ws)) eq_refl),
            ?(c_other (TimeoutTimer (length ws)) eq_refl);
    repeat match goal with
           | |- context [c (Settle ?w ?x)] => rewrite (c_other (Settle w x) eq_refl)
           | |- context [c (Crash ?w ?x)] => rewrite (c_other (Crash w x) eq_refl)
           end; lia.
Qed.

Lemma load_pop x q s :
  queue s = x :: q ->
  load c (set_queue q (set_now (due x) s)) + (if c (task x) then 1 else 0)
    + (if is_retry (task x) then 1 else 0) = load c s.
Proof.
  intros Hq. unfold load, running, retries_pending. rewrite Hq. cbn.
  destruct (c (task x)), (is_retry (task x)); cbn; lia.
Qed.

End Load.


Section NodeLoad.

Variable runnable : IRunnable.
Variable options : option IRunnableOption.
Variable params : list Value.

Local Abbreviation every := (fun t (H : is_exit t = true) => H).

Lemma node_step_load s s' :
  Node.step runnable options params s = Some s' -> load is_exit s' <= load is_exit s.
Proof.
  unfold Node.step. destruct (queue s) as [|x q] eqn:Eq; [discriminate|].
  intros [= <-]. pose proof (load_pop is_exit x q s Eq) as Hp.
  destruct (is_retry (task x)) eqn:Er.
  - rewrite (is_retry_true _ Er) in *. cbn [Node.handle].
    rewrite (load_tryExecution is_exit every). lia.
  - destruct (is_exit (task x)) eqn:Ee.
    + destruct (task x); try discriminate. cbn [Node.handle].
      pose proof (load_exitHandler is_exit every options code
                    (set_queue q (set_now (due x) s))). lia.
    + pose proof (load_handle is_exit every runnable options params (task x)
                    (set_queue q (set_now (due x) s)) Er Ee). lia.
Qed.

Lemma node_run_load n : forall s,
  load is_exit (Node.run runnable options params n s) <= load is_exit s.
Proof.
  induction n as [|n IH]; intros s; cbn [Node.run]; auto.
  destruct (Node.step runnable options params s) as [s'|] eqn:E; auto.
  eapply Nat.le_trans; [apply IH|]. apply node_step_load; auto.
Qed.

Lemma node_createPool_load :
  load is_exit (Node.createPool runnable options params) = 1.
Proof.
  unfold Node.createPool. rewrite (load_tryExecution is_exit every).
  destruct options as [[[[]|] ? ? ? ?]|]; reflexivity.
Qed.

End NodeLoad.

(** X7. worker_threads variant: whatever the computation does and whatever
    the options are, at most one worker runs at any moment of an invocation,
    and while one runs no exit is waiting to be handled and no retry is
    scheduled: a retry starts only after the previous worker has exited. *)
Theorem node_attempts_never_overlap
    (runnable : IRunnable) (options : option IRunnableOption) (params : list Value)
    (fuel : nat) :
  let s := Node.run runnable options params fuel
             (Node.createPool runnable options params) in
  running s + exits_pending s + retries_pending s <= 1.
Proof.
  cbn zeta. rewrite <- (node_createPool_load runnable options params).
  apply (node_run_load runnable options params fuel).
Qed.

(** ** Isolates that fail outside the computation *)

Section NodeCrash.

Variable runnable : IRunnable.
Variable options : option IRunnableOption.
Variable params : list Value.

Local Abbreviation run := (Node.run runnable options params).
Local Abbreviation step := (Node.step runnable options params).
Local Abbreviation tryExecution := (Node.tryExecution runnable options params).
Local Abbreviation exitHandler := (Node.exitHandler options).



End NodeCrash.

Section WebCrash.

Variable runnable : IRunnable.
Variable options : option IRunnableOption.
Variable params : list Value.

Local Abbreviation run := (Web.run runnable options params).
Local Abbreviation step := (Web.step runnable options params).
Local Abbreviation tryExecution := (Web.tryExecution runnable options params).
Local Abbreviation exitHandler := (Web.exitHandler options).



End WebCrash.



(** ** After the promise is settled (worker_threads variant) *)




Section NodeFinished.

Variable runnable : IRunnable.
Variable options : option IRunnableOption.
Variable params : list Value.

Local Abbreviation handle := (Node.handle runnable options params).
Local Abbreviation run := (Node.run runnable options params).








End NodeFinished.



(** ** The start delay and the timers of a worker stopped by its timeout *)

Lemma sorted_enqueue e q :
  StronglySorted (fun a b => due a <= due b) q ->
  StronglySorted (fun a b => due a <= due b) (enqueue e q).
Proof.
  induction q as [|x q IH]; intros H; cbn [enqueue].
  - repeat constructor.
  - inversion H as [|? ? Hq Hx]; subst.
    destruct (Nat.ltb_spec (due e) (due x)).
    + constructor; auto. constructor; [lia|].
      eapply Forall_impl; [|exact Hx]. cbn. intros; lia.
    + constructor; auto.
      apply Forall_forall. intros y Hy. apply In_enqueue_iff in Hy as [->|Hy]; [lia|].
      rewrite Forall_forall in Hx. auto.
Qed.

Lemma sorted_filter (f : Entry -> bool) q :
  StronglySorted (fun a b => due a <= due b) q ->
  StronglySorted (fun a b => due a <= due b) (filter f q).
Proof.
  induction q as [|x q IH]; intros H; cbn [filter]; auto.
  inversion H as [|? ? Hq Hx]; subst.
  destruct (f x); auto. constructor; auto.
  apply Forall_forall. intros y Hy. apply filter_In in Hy as [Hy _].
  rewrite Forall_forall in Hx. auto.
Qed.

Lemma Forall_enqueue (P : Entry -> Prop) e q :
  P e -> Forall P q -> Forall P (enqueue e q).
Proof.
  intros He Hq. apply Forall_forall. intros y Hy.
  apply In_enqueue_iff in Hy as [->|Hy]; auto.
  rewrite Forall_forall in Hq. auto.
Qed.

Lemma Forall_filter (P : Entry -> Prop) (f : Entry -> bool) q :
  Forall P q -> Forall P (filter f q).
Proof.
  intros Hq. apply Forall_forall. intros y Hy. apply filter_In in Hy as [Hy _].
  rewrite Forall_forall in Hq. auto.
Qed.

Lemma NoDup_enqueue e q :
  ~ In (id e) (map id q) -> NoDup (map id q) -> NoDup (map id (enqueue e q)).
Proof.
  destruct (enqueue_split e q) as (q1 & q2 & -> & ->).
  rewrite !map_app. cbn [map]. intros Hn Hd.
  apply (NoDup_Add (Add_app (id e) (map id q1) (map id q2))). auto.
Qed.

Lemma NoDup_filter_id (f : Entry -> bool) q :
  NoDup (map id q) -> NoDup (map id (filter f q)).
Proof.
  induction q as [|x q IH]; cbn [filter map]; auto.
  intros H. inversion H as [|? ? Hx Hq]; subst.
  destruct (f x); auto. cbn [map]. constructor; auto.
  intros Hin. apply Hx. apply in_map_iff in Hin as (y & E & Hy).
  apply filter_In in Hy as [Hy _]. apply in_map_iff. eauto.
Qed.

Section Sound.

Variable D nw : nat.

Lemma sound_same s s' :
  now s' = now s -> queue s' = queue s -> seq s' = seq s ->
  sound D nw s -> sound D nw s'.
Proof. unfold sound. intros -> -> ->. auto. Qed.

Lemma sound_schedule d t s :
  (is_delivery t = true -> D <= nw + d) -> sound D nw s -> sound D nw (schedule d t s).
Proof.
  intros Ht (Hn & Hs & Hf & Hd & Hi). unfold sound. cbn.
  refine (conj Hn (conj _ (conj _ (conj _ _)))).
  - apply sorted_enqueue; auto.
  - apply Forall_enqueue; auto. cbn. split; [lia|]. rewrite Hn. auto.
  - apply NoDup_enqueue; auto. cbn. intros Hin.
    apply in_map_iff in Hin as (y & E & Hy).
    rewrite Forall_forall in Hi. specialize (Hi y Hy). lia.
  - apply Forall_enqueue; [cbn; lia|].
    eapply Forall_impl; [|exact Hi]. cbn. intros; lia.
Qed.

Lemma sound_clearTimeout i s : sound D nw s -> sound D nw (clearTimeout i s).
Proof.
  destruct i as [i|]; auto. intros (Hn & Hs & Hf & Hd & Hi). unfold sound. cbn.
  refine (conj Hn (conj _ (conj _ (conj _ _)))).
  - apply sorted_filter; auto.
  - apply Forall_filter; auto.
  - apply NoDup_filter_id; auto.
  - apply Forall_filter; auto.
Qed.

Lemma sound_kill w s : sound D nw s -> sound D nw (kill w s).
Proof. apply sound_same; reflexivity. Qed.

Lemma sound_resolve v s : sound D nw s -> sound D nw (resolve v s).
Proof. unfold resolve. destruct (promise s); apply sound_same; reflexivity. Qed.

Lemma sound_reject e s : sound D nw s -> sound D nw (reject e s).
Proof. unfold reject. destruct (promise s); apply sound_same; reflexivity. Qed.

Lemma sound_exitHandler options code s :
  sound D nw s -> sound D nw (Node.exitHandler options code s).
Proof.
  intros H. unfold Node.exitHandler.
  destruct (code =? 0)%Z; auto.
  destruct (retryCount s <? length (Node.retriesWithIn' options)).
  - unfold setTimeout. cbn [snd]. apply sound_schedule; [discriminate|].
    revert H. apply sound_same; reflexivity.
  - apply sound_reject; auto.
Qed.

Lemma sound_node_terminate w s : sound D nw s -> sound D nw (Node.terminate w s).
Proof.
  intros H. unfold Node.terminate. destruct (is_alive w s); auto.
  apply sound_schedule; [discriminate|]. apply sound_kill; auto.
Qed.

Lemma sound_web_terminate w s : sound D nw s -> sound D nw (Web.terminate w s).
Proof.
  intros H. unfold Web.terminate. destruct (is_alive w s); auto.
Qed.

Lemma sound_node_abort l : forall s,
  sound D nw s -> sound D nw (fold_left (fun s w => Node.terminate w s) l s).
Proof.
  induction l as [|w l IH]; intros s H; cbn; auto. apply IH, sound_node_terminate, H.
Qed.

Lemma sound_web_abort l : forall s,
  sound D nw s -> sound D nw (fold_left (fun s w => Web.terminate w s) l s).
Proof.
  induction l as [|w l IH]; intros s H; cbn; auto. apply IH, sound_web_terminate, H.
Qed.

Lemma sound_postMessage runnable params w s :
  D <= nw -> sound D nw s -> sound D nw (Node.postMessage runnable params w s).
Proof.
  intros HD H. unfold Node.postMessage. destruct (is_alive w s); auto.
  destruct (runnable w params); auto. apply sound_schedule; auto. intros _. lia.
Qed.

End Sound.

Ltac sound_chain :=
  repeat first
    [ assumption
    | apply sound_schedule; [cbn; try discriminate; intros; lia|]
    | apply sound_postMessage; [cbn; lia|]
    | match goal with
      | |- sound _ _ (set_workers _ ?x) =>
          apply (sound_same _ _ x); [reflexivity|reflexivity|reflexivity|]
      | |- sound _ _ (set_abortListeners _ ?x) =>
          apply (sound_same _ _ x); [reflexivity|reflexivity|reflexivity|]
      end ].

Lemma sound_tryExecution runnable options params nw s :
  sound (startDelay (orDefault options)) nw s ->
  sound (startDelay (orDefault options)) nw (Node.tryExecution runnable options params s).
Proof.
  intros H.
  unfold Node.tryExecution, Node.createWorker, Node.newWorker, setTimeout.
  split_options options; cbn -[Node.postMessage schedule] in *; rewrite ?Est, ?Eto;
    try (apply truthy_false in Est; subst st);
    cbn -[Node.postMessage schedule];
    destruct (runnable (length (workers s)) params) eqn:Hb; cbn -[Node.postMessage schedule].
  all: sound_chain.
  all: idtac.
Qed.

Lemma exitHandler_resolves_nothing options code s v :
  promise (Node.exitHandler options code s) = Resolved v -> promise s = Resolved v.
Proof.
  unfold Node.exitHandler, reject.
  destruct s as [nw sq q ws al [] rc ei lg]; cbn; break_match; congruence.
Qed.

Lemma sound_pop D s x q :
  queue s = x :: q -> sound D (now s) s ->
  sound D (due x) (set_queue q (set_now (due x) s)) /\
  now s <= due x /\ (is_delivery (task x) = true -> D <= due x).
Proof.
  intros Hq (_ & Hs & Hf & Hd & Hi). rewrite Hq in *.
  inversion Hs as [|? ? Hs' Hx]; subst. inversion Hf as [|? ? [H1 H2] Hf']; subst.
  inversion Hd; subst. inversion Hi; subst.
  repeat split; auto; cbn; auto.
  apply Forall_forall. intros y Hy.
  rewrite Forall_forall in Hx, Hf'. destruct (Hf' y Hy). split; auto.
Qed.

Section Waited.

Variable runnable : IRunnable.
Variable options : option IRunnableOption.
Variable params : list Value.

Local Abbreviation D := (startDelay (orDefault options)).

Lemma node_handle_sound t nw s :
  sound D nw s -> (is_delivery t = true -> D <= nw) ->
  sound D nw (Node.handle runnable options params t s).
Proof.
  intros H Ht. destruct t; cbn [Node.handle].
  - apply sound_postMessage; auto.
  - apply sound_clearTimeout, sound_node_terminate, H.
  - apply sound_tryExecution, H.
  - apply sound_node_abort. revert H. apply sound_same; reflexivity.
  - destruct (is_alive w s); auto. destruct c as [v|e].
    + rewrite node_finish_returns. apply sound_schedule; [discriminate|].
      apply sound_kill. unfold Node.onMessage.
      apply sound_resolve, sound_clearTimeout, sound_clearTimeout, H.
    + rewrite node_finish_throws. apply sound_schedule; [discriminate|]. exact H.
  - destruct (is_alive w s); auto. apply sound_schedule; [discriminate|]. exact H.
  - apply sound_exitHandler, H.
Qed.

(** Only the result of the computation resolves the promise. *)
Lemma node_handle_resolves t s v :
  is_delivery t = false ->
  promise (Node.handle runnable options params t s) = Resolved v ->
  promise s = Resolved v.
Proof.
  intros Ht. destruct t; try discriminate; cbn [Node.handle].
  - unfold clearTimeout.
    destruct (startTimerOf w s); cbn; rewrite (proj1 (node_terminate_frame w s)); auto.
  - rewrite (proj1 (node_tryExecution_frame runnable options params s)). auto.
  - rewrite (proj1 (node_abort_frame (abortListeners s) (set_abortListeners [] s))). auto.
  - destruct (is_alive w s); auto.
  - apply exitHandler_resolves_nothing.
Qed.

Lemma node_step_waited s s' :
  Node.step runnable options params s = Some s' -> waited options s -> waited options s'.
Proof.
  unfold Node.step. destruct (queue s) as [|x q] eqn:Eq; [discriminate|].
  intros [= <-] [Hs Hp].
  destruct (sound_pop D s x q Eq Hs) as (H0 & Hn & Hd).
  pose proof (node_handle_sound (task x) (due x) _ H0 Hd) as H1.
  assert (En : now (Node.handle runnable options params (task x)
                      (set_queue q (set_now (due x) s))) = due x) by apply H1.
  split; rewrite En; auto.
  intros v Hv. destruct (is_delivery (task x)) eqn:Ex; auto.
  apply node_handle_resolves in Hv; auto. specialize (Hp v Hv). lia.
Qed.

Lemma node_run_waited n : forall s,
  waited options s -> waited options (Node.run runnable options params n s).
Proof.
  induction n as [|n IH]; intros s H; cbn [Node.run]; auto.
  destruct (Node.step runnable options params s) as [s'|] eqn:E; auto.
  apply IH. eapply node_step_waited; eauto.
Qed.

Lemma createPool_waited : waited options (Node.createPool runnable options params).
Proof.
  unfold Node.createPool.
  destruct (node_tryExecution_frame runnable options params (initial options))
    as (Ep & _ & En & _).
  split.
  - rewrite En. apply sound_tryExecution.
    destruct options as [[[[]|] ? ? ? ?]|]; cbn;
      repeat split; repeat constructor; cbn; try lia; discriminate.
  - intros v Hv. rewrite Ep in Hv.
    destruct options as [[[[]|] ? ? ? ?]|]; discriminate.
Qed.

Lemma web_handle_sound t nw s :
  sound D nw s -> (is_delivery t = true -> D <= nw) ->
  sound D nw (Web.handle runnable options params t s).
Proof.
  intros H Ht. destruct t; cbn [Web.handle].
  - apply sound_postMessage; auto.
  - apply sound_clearTimeout, sound_web_terminate, H.
  - apply sound_tryExecution, H.
  - apply sound_web_abort. revert H. apply sound_same; reflexivity.
  - destruct (is_alive w s); auto.
    destruct c as [v|e];
      [ change (sound D nw (Web.onMessage options w (success v) (kill w s)))
      | change (sound D nw (Web.onMessage options w (error e) (kill w s))) ];
      unfold Web.onMessage, Web.dispatchExit;
      [ change (Web.exitHandler options 0) with (Node.exitHandler options 0)
      | change (Web.exitHandler options 1) with (Node.exitHandler options 1) ];
      apply sound_exitHandler.
    + apply sound_resolve, sound_clearTimeout, sound_clearTimeout, sound_kill, H.
    + apply (sound_same _ _ (clearTimeout
                (startTimerOf w (clearTimeout (timeoutTimerOf w (kill w s)) (kill w s)))
                (clearTimeout (timeoutTimerOf w (kill w s)) (kill w s))));
        [reflexivity | reflexivity | reflexivity |].
      apply sound_clearTimeout, sound_clearTimeout, sound_kill, H.
  - destruct (is_alive w s); auto. unfold Web.onError, Web.dispatchExit.
    change (Web.exitHandler options 1) with (Node.exitHandler options 1).
    apply sound_exitHandler. exact H.
  - exact H.
Qed.

Lemma web_handle_resolves t s v :
  is_delivery t = false ->
  promise (Web.handle runnable options params t s) = Resolved v ->
  promise s = Resolved v.
Proof.
  intros Ht. destruct t; try discriminate; cbn [Web.handle].
  - unfold clearTimeout.
    destruct (startTimerOf w s); cbn; rewrite (proj1 (web_terminate_frame w s)); auto.
  - rewrite (proj1 (web_tryExecution_frame runnable options params s)). auto.
  - rewrite (proj1 (web_abort_frame (abortListeners s) (set_abortListeners [] s))). auto.
  - destruct (is_alive w s); auto. unfold Web.onError, Web.dispatchExit.
    change (Web.exitHandler options 1) with (Node.exitHandler options 1).
    intros H. apply exitHandler_resolves_nothing in H. exact H.
  - auto.
Qed.

Lemma web_step_waited s s' :
  Web.step runnable options params s = Some s' -> waited options s -> waited options s'.
Proof.
  unfold Web.step. destruct (queue s) as [|x q] eqn:Eq; [discriminate|].
  intros [= <-] [Hs Hp].
  destruct (sound_pop D s x q Eq Hs) as (H0 & Hn & Hd).
  pose proof (web_handle_sound (task x) (due x) _ H0 Hd) as H1.
  assert (En : now (Web.handle runnable options params (task x)
                      (set_queue q (set_now (due x) s))) = due x) by apply H1.
  split; rewrite En; auto.
  intros v Hv. destruct (is_delivery (task x)) eqn:Ex; auto.
  apply web_handle_resolves in Hv; auto. specialize (Hp v Hv). lia.
Qed.

Lemma web_run_waited n : forall s,
  waited options s -> waited options (Web.run runnable options params n s).
Proof.
  induction n as [|n IH]; intros s H; cbn [Web.run]; auto.
  destruct (Web.step runnable options params s) as [s'|] eqn:E; auto.
  apply IH. eapply web_step_waited; eauto.
Qed.

End Waited.



(** When the timeout of worker [w] fires, what [clearTimeout(startTimer)]
    leaves behind holds no timer of [w]: its start timer is the one that is
    cleared, and the timeout that fired was its only one. *)
Lemma expiry_clears w x q s s1 :
  timers_recorded s -> NoDup (map id (queue s)) ->
  queue s = x :: q -> task x = TimeoutTimer w ->
  calm True (set_queue q (set_now (due x) s)) s1 ->
  timers_cleared w (clearTimeout (startTimerOf w (set_queue q (set_now (due x) s))) s1).
Proof.
  intros I Hd Hq Hx (Q & _ & _ & L).
  pose proof (I x) as Ix. rewrite Hq, Hx in Ix. specialize (Ix (or_introl eq_refl)).
  split.
  - unfold timers_pending. rewrite filter_nil_iff. intros z Hz.
    assert (Hz1 : In z (queue s1)).
    { destruct (startTimerOf w (set_queue q (set_now (due x) s))); cbn in Hz; auto.
      apply filter_In in Hz as [Hz _]. exact Hz. }
    destruct (Q z Hz1) as [Hin|[Hn _]].
    + cbn in Hin. assert (Hs : In z (queue s)) by (rewrite Hq; right; exact Hin).
      specialize (I z Hs).
      destruct (task z) as [w'|w'| | | | |]; cbn; auto;
        destruct (Nat.eqb_spec w' w) as [->|]; auto; exfalso.
      * change (startTimerOf w (set_queue q (set_now (due x) s)))
          with (startTimerOf w s) in Hz.
        rewrite I in Hz. cbn in Hz. apply filter_In in Hz as [_ Hz].
        rewrite Nat.eqb_refl in Hz. discriminate.
      * rewrite Hq in Hd. cbn [map] in Hd. inversion Hd as [|? ? Hn _]; subst.
        apply Hn. apply in_map_iff. exists z. split; [congruence|exact Hin].
    + destruct (timer_of w (task z)) eqn:E; auto.
      apply timer_of_is_timer in E. congruence.
  - apply timeoutTimerOf_lt in Ix.
    destruct (startTimerOf w (set_queue q (set_now (due x) s))); cbn; rewrite L; exact Ix.
Qed.

(** X11. In both variants, once the timeout of a worker has fired, neither
    the start timer nor a timeout timer of that worker is pending, at that
    step and for the rest of the invocation: a worker stopped by its timeout
    before its start delay has elapsed is never handed the arguments. *)
Theorem timeout_clears_timers
    (runnable : IRunnable) (options : option IRunnableOption) (params : list Value)
    (fuel more w : nat) (x : Entry) (q : list Entry) :
  (let s := Node.run runnable options params fuel
              (Node.createPool runnable options params) in
   queue s = x :: q -> task x = TimeoutTimer w ->
   timers_pending w (Node.run runnable options params (S more) s) = []) /\
  (let s := Web.run runnable options params fuel
              (Web.createPool runnable options params) in
   queue s = x :: q -> task x = TimeoutTimer w ->
   timers_pending w (Web.run runnable options params (S more) s) = []).
Proof.
  split; cbv zeta.
  - intros Hq Hx.
    set (s := Node.run runnable options params fuel
                (Node.createPool runnable options params)) in *.
    assert (I : timers_recorded s).
    { apply node_run_recorded, recorded_spawn, recorded_initial. }
    assert (Hd : NoDup (map id (queue s))).
    { apply (node_run_waited runnable options params fuel _
               (createPool_waited runnable options params)). }
    rewrite node_run_S. unfold Node.step. rewrite Hq, Hx.
    apply node_run_cleared. cbn [Node.handle].
    apply (expiry_clears w x q s); auto. apply calm_node_terminate.
  - intros Hq Hx.
    set (s := Web.run runnable options params fuel
                (Web.createPool runnable options params)) in *.
    assert (I : timers_recorded s).
    { apply web_run_recorded.
      apply (recorded_spawn runnable options params), recorded_initial. }
    assert (Hd : NoDup (map id (queue s))).
    { apply (web_run_waited runnable options params fuel _
               (createPool_waited runnable options params)). }
    rewrite web_run_S. unfold Web.step. rewrite Hq, Hx.
    apply web_run_cleared. cbn [Web.handle].
    apply (expiry_clears w x q s); auto. apply calm_web_terminate.
Qed.

Lemma timeout_clears_timers_witness :
  let options := Some (mkOption None (Some 10%Z) (Some 5%Z) (Some [20%Z]) None) in
  let x := mkEntry 5 2 (TimeoutTimer 0) in
  let q := [mkEntry 10 1 (StartTimer 0)] in
  (let s := Node.run add options [2; 3]%Z 0 (Node.createPool add options [2; 3]%Z) in
   queue s = x :: q /\
   timers_pending 0 (Node.run add options [2; 3]%Z 3 s) = []) /\
  (let s := Web.run add options [2; 3]%Z 0 (Web.createPool add options [2; 3]%Z) in
   queue s = x :: q /\
   timers_pending 0 (Web.run add options [2; 3]%Z 3 s) = []).
Proof.
  intros options x q.
  destruct (timeout_clears_timers add options [2; 3]%Z 0 2 0 x q) as [HN HW].
  split.
  - split; [reflexivity|]. apply HN; reflexivity.
  - split; [reflexivity|]. apply HW; reflexivity.
Defined.
